(** * A verification development of antigravity-claude-proxy

    Shallow embeddings of:
    - the signature cache (utils/signature-cache, listed in tests/test-mappers.cjs),
    - the argument remapper [remapFunctionCallArgs] of src/utils/mappers.js,
    - the credential-store reader of src/auth/database.js,
    - and, modelled from the spec because their source is not part of this
      tree, the Dispatcher's endpoint failover loop and AccountPool selection. *)

From stdpp Require Import base gmap list strings.
From Stdlib Require Import ZArith Lia Ascii String.

Open Scope Z_scope.

(* ===================================================================== *)
(** ** Signature cache *)
(* ===================================================================== *)

Module SignatureCache.

Record SigEntry := { signature : string; sig_timestamp : Z }.
Record FamilyEntry := { modelFamily : string; fam_timestamp : Z }.

(** The two module-level [Map]s: [signatureCache] and [thinkingSignatureCache]. *)
Record CacheState := {
  signatureCache : gmap string SigEntry;
  thinkingSignatureCache : gmap string FamilyEntry
}.

Definition empty_state : CacheState :=
  {| signatureCache := ∅; thinkingSignatureCache := ∅ |}.

Definition set_sig (m : gmap string SigEntry) (st : CacheState) : CacheState :=
  {| signatureCache := m; thinkingSignatureCache := thinkingSignatureCache st |}.
Definition set_thinking (m : gmap string FamilyEntry) (st : CacheState) : CacheState :=
  {| signatureCache := signatureCache st; thinkingSignatureCache := m |}.

(** A string is falsy in JS exactly when it is empty. *)
Definition is_empty_string (s : string) : bool :=
  match s with EmptyString => true | _ => false end.

Section WithConstants.

(** [GEMINI_SIGNATURE_CACHE_TTL_MS] and [MIN_SIGNATURE_LENGTH] come from
    constants.js; every operation reads the clock [Date.now()] as [now]. *)
Variable GEMINI_SIGNATURE_CACHE_TTL_MS : Z.
Variable MIN_SIGNATURE_LENGTH : nat.

Definition expired (now ts : Z) : bool := bool_decide (now - ts > GEMINI_SIGNATURE_CACHE_TTL_MS).

(** [for (const [key, entry] of cache.entries()) if (expired) cache.delete(key)] *)
Definition sweep {E} (ts : E -> Z) (now : Z) (m : gmap string E) : gmap string E :=
  foldr (fun '(k, e) acc => if expired now (ts e) then delete k acc else acc)
        m (map_to_list m).

Definition cleanupExpiredEntries (now : Z) (st : CacheState) : CacheState :=
  let st1 := set_sig (sweep sig_timestamp now (signatureCache st)) st in
  set_thinking (sweep fam_timestamp now (thinkingSignatureCache st1)) st1.

Definition cleanupCache := cleanupExpiredEntries.

Definition cacheSignature (now : Z) (toolUseId sig : string) (st : CacheState) : CacheState :=
  if is_empty_string toolUseId || is_empty_string sig then st
  else set_sig (<[toolUseId := {| signature := sig; sig_timestamp := now |}]> (signatureCache st)) st.

Definition getCachedSignature (now : Z) (toolUseId : string) (st : CacheState)
  : option string * CacheState :=
  if is_empty_string toolUseId then (None, st) else
  match signatureCache st !! toolUseId with
  | None => (None, st)
  | Some entry =>
      if expired now (sig_timestamp entry)
      then (None, set_sig (delete toolUseId (signatureCache st)) st)
      else (Some (signature entry), st)
  end.

Definition cacheThinkingSignature (now : Z) (sig fam : string) (st : CacheState) : CacheState :=
  if is_empty_string sig || bool_decide (String.length sig < MIN_SIGNATURE_LENGTH)%nat then st
  else set_thinking (<[sig := {| modelFamily := fam; fam_timestamp := now |}]>
                       (thinkingSignatureCache st)) st.

Definition getCachedSignatureFamily (now : Z) (sig : string) (st : CacheState)
  : option string * CacheState :=
  if is_empty_string sig then (None, st) else
  match thinkingSignatureCache st !! sig with
  | None => (None, st)
  | Some entry =>
      if expired now (fam_timestamp entry)
      then (None, set_thinking (delete sig (thinkingSignatureCache st)) st)
      else (Some (modelFamily entry), st)
  end.

Definition clearThinkingSignatureCache (st : CacheState) : CacheState :=
  set_thinking ∅ st.

(** The states the module can reach from its initial empty maps through its
    exported operations (the periodic sweep included). *)
Inductive reachable : CacheState -> Prop :=
| reach_init : reachable empty_state
| reach_cacheSignature now id sig st :
    reachable st -> reachable (cacheSignature now id sig st)
| reach_getCachedSignature now id st :
    reachable st -> reachable (snd (getCachedSignature now id st))
| reach_cacheThinkingSignature now sig fam st :
    reachable st -> reachable (cacheThinkingSignature now sig fam st)
| reach_getCachedSignatureFamily now sig st :
    reachable st -> reachable (snd (getCachedSignatureFamily now sig st))
| reach_clear st :
    reachable st -> reachable (clearThinkingSignatureCache st)
| reach_cleanup now st :
    reachable st -> reachable (cleanupExpiredEntries now st).

(** A read of an entry map at [now], as both getters perform it: an entry
    older than the TTL reads as absent. *)
Definition read {E R} (ts : E -> Z) (val : E -> R) (now : Z) (m : gmap string E) (k : string)
  : option R :=
  match m !! k with
  | Some e => if expired now (ts e) then None else Some (val e)
  | None => None
  end.

End WithConstants.

End SignatureCache.


(* ===================================================================== *)
(** ** Parameter mapping: src/utils/mappers.js *)
(* ===================================================================== *)

Module Mappers.

Set Warnings "-register-all".

(** JavaScript values as they reach the remapper.  A number is kept as its
    integer value ([coerceToBool] only compares it with [0]); a nested object
    is opaque and identified by a reference. *)
Inductive jsval :=
| JUndefined
| JNull
| JBool (b : bool)
| JNumber (z : Z)
| JString (s : string)
| JArray (l : list jsval)
| JObject (ref : nat).

(** The [args] object: own properties as a finite map; reading a missing
    property yields [undefined]. *)
Definition get (args : gmap string jsval) (k : string) : jsval :=
  match args !! k with Some v => v | None => JUndefined end.

Definition is_undefined (v : jsval) : bool :=
  match v with JUndefined => true | _ => false end.

(** [String.prototype.toLowerCase] on the ASCII letters A-Z only; other
    characters are kept.  The callers compare its result with ASCII words
    only (true, yes, false, no, grep, glob), and no other character of the
    8-bit range lowercases to an ASCII letter, so those comparisons come out
    as in JavaScript. *)
Definition ascii_lower (c : ascii) : ascii :=
  let n := nat_of_ascii c in
  if (65 <=? n)%nat && (n <=? 90)%nat then ascii_of_nat (n + 32) else c.

Fixpoint toLowerCase (s : string) : string :=
  match s with
  | EmptyString => EmptyString
  | String c r => String (ascii_lower c) (toLowerCase r)
  end.

Definition coerceToBool (value : jsval) : option bool :=
  match value with
  | JBool b => Some b
  | JString s =>
      let lower := toLowerCase s in
      if existsb (String.eqb lower) ["true"; "yes"; "1"; "-n"] then Some true
      else if existsb (String.eqb lower) ["false"; "no"; "0"] then Some false
      else None
  | JNumber z => Some (negb (z =? 0))
  | _ => None
  end.

(** [if (args[src] !== undefined) { const v = args[src]; delete args[src];
      if (args[dst] === undefined) args[dst] = v; }] *)
Definition remap_key (src dst : string) (args : gmap string jsval) : gmap string jsval :=
  if negb (is_undefined (get args src)) then
    let v := get args src in
    let args1 := delete src args in
    if is_undefined (get args1 dst) then <[dst := v]> args1 else args1
  else args.

(** [includes.filter(v => typeof v === 'string').join(',')] *)
Fixpoint string_elems (l : list jsval) : list string :=
  match l with
  | [] => []
  | JString s :: r => s :: string_elems r
  | _ :: r => string_elems r
  end.

Fixpoint join (sep : string) (l : list string) : string :=
  match l with
  | [] => ""
  | [x] => x
  | x :: r => String.append x (String.append sep (join sep r))
  end.

Definition remap_includes (args : gmap string jsval) : gmap string jsval :=
  if negb (is_undefined (get args "includes")) then
    let includes := get args "includes" in
    let args1 := delete "includes" args in
    if is_undefined (get args1 "include") then
      let includeStr :=
        match includes with
        | JArray l => join "," (string_elems l)
        | JString s => s
        | _ => ""
        end in
      if SignatureCache.is_empty_string includeStr then args1
      else <[ "include" := JString includeStr ]> args1
    else args1
  else args.

Definition remap_dash_n (args : gmap string jsval) : gmap string jsval :=
  if negb (is_undefined (get args "-n")) then
    let nVal := get args "-n" in
    let args1 := delete "-n" args in
    match coerceToBool nVal with
    | Some b =>
        if is_undefined (get args1 "lineNumbers")
        then <[ "lineNumbers" := JBool b ]> args1 else args1
    | None => args1
    end
  else args.

Definition boolParams : list string :=
  ["ignoreCase"; "lineNumbers"; "caseSensitive"; "regex"; "wholeWord"].

Definition coerce_param (args : gmap string jsval) (param : string) : gmap string jsval :=
  match get args param with
  | JString s =>
      match coerceToBool (JString s) with
      | Some b => <[param := JBool b]> args
      | None => args
      end
  | _ => args
  end.

Definition remap_grep (args : gmap string jsval) : gmap string jsval :=
  let args := remap_key "description" "pattern" args in
  let args := remap_key "query" "pattern" args in
  let args := remap_includes args in
  let args := remap_key "ignore_case" "ignoreCase" args in
  let args := remap_dash_n args in
  fold_left coerce_param boolParams args.

Definition remap_glob (args : gmap string jsval) : gmap string jsval :=
  let args := remap_key "description" "pattern" args in
  remap_key "query" "pattern" args.

(** The in-place mutation of [args] is returned as the new object state;
    [args] is always an object here (the early return for non-objects
    changes nothing). *)
Definition remapFunctionCallArgs (toolName : string) (args : gmap string jsval)
  : gmap string jsval :=
  let lowerToolName := toLowerCase toolName in
  if String.eqb lowerToolName "grep" then remap_grep args
  else if String.eqb lowerToolName "glob" then remap_glob args
  else args.

(** Vocabulary for the proofs: a boolean parameter needs no further coercion
    when it is not a string, or is a string [coerceToBool] cannot read. *)
Definition param_settled (v : jsval) : Prop :=
  match v with
  | JString s => coerceToBool (JString s) = None
  | _ => True
  end.

(** The shape [remap_grep] leaves behind: no malformed key, every boolean
    parameter settled. *)
Definition grep_clean (args : gmap string jsval) : Prop :=
  get args "description" = JUndefined /\ get args "query" = JUndefined /\
  get args "includes" = JUndefined /\ get args "ignore_case" = JUndefined /\
  get args "-n" = JUndefined /\ (forall p, p ∈ boolParams -> param_settled (get args p)).

Definition glob_clean (args : gmap string jsval) : Prop :=
  get args "description" = JUndefined /\ get args "query" = JUndefined.

(** The value the coercion loop leaves in a boolean parameter that held [v]:
    a string [coerceToBool] can read becomes that boolean, anything else is
    kept. *)
Definition coerced (v : jsval) : jsval :=
  match v with
  | JString s =>
      match coerceToBool (JString s) with
      | Some b => JBool b
      | None => JString s
      end
  | _ => v
  end.

End Mappers.


(* ===================================================================== *)
(** ** Credential-store reader: src/auth/database.js *)
(* ===================================================================== *)

Module Database.
Import Mappers.

(** A thrown JavaScript error: its [code] property (SQLite errors carry one),
    its [message], and whether it is an instance of [NativeModuleError]. *)
Record JsError := {
  err_code : option string;
  err_message : string;
  err_native : bool
}.

Definition Error (msg : string) : JsError :=
  {| err_code := None; err_message := msg; err_native := false |}.
Definition NativeModuleError (msg : string) : JsError :=
  {| err_code := None; err_message := msg; err_native := true |}.

(** [String.prototype.includes] *)
Definition includes (s sub : string) : bool :=
  match String.index 0 sub s with Some _ => true | None => false end.

(** JavaScript truthiness. *)
Definition truthy (v : jsval) : bool :=
  match v with
  | JUndefined | JNull => false
  | JBool b => b
  | JNumber z => negb (z =? 0)
  | JString s => negb (SignatureCache.is_empty_string s)
  | JArray _ | JObject _ => true
  end.

(** What [db._cachedAuthStmt.get()] yields on a connection: a row whose
    [value] column may be NULL, no row, or a thrown SQLite error (also from
    [db.prepare]). *)
Inductive QueryResult :=
| QRow (value : option string)
| QNoRow
| QFail (e : JsError).

(** A better-sqlite3 connection: its [open] flag and the auth query result. *)
Record Conn := { conn_open : bool; conn_query : QueryResult }.

(** The result of [JSON.parse]: an object with its properties, [null], or
    any other value (a string, number, boolean or array has no [apiKey]). *)
Inductive Parsed :=
| PObject (fields : gmap string jsval)
| PNull
| POther.

(** The module's mutable state: [Database], [moduleLoadError], [dbCache]. *)
Record DbState := {
  Database_loaded : bool;
  moduleLoadError : option JsError;
  dbCache : gmap string Conn
}.

Definition set_loaded (st : DbState) : DbState :=
  {| Database_loaded := true; moduleLoadError := moduleLoadError st; dbCache := dbCache st |}.
Definition set_load_error (e : JsError) (st : DbState) : DbState :=
  {| Database_loaded := Database_loaded st; moduleLoadError := Some e; dbCache := dbCache st |}.
Definition set_cache (c : gmap string Conn) (st : DbState) : DbState :=
  {| Database_loaded := Database_loaded st; moduleLoadError := moduleLoadError st; dbCache := c |}.

(** Synchronous JavaScript code that may throw, over the module state. *)
Definition M (A : Type) : Type := DbState -> (A + JsError) * DbState.

Definition ret {A} (a : A) : M A := fun st => (inl a, st).
Definition throw {A} (e : JsError) : M A := fun st => (inr e, st).
Definition bind {A B} (m : M A) (k : A -> M B) : M B :=
  fun st => match m st with
            | (inl a, st') => k a st'
            | (inr e, st') => (inr e, st')
            end.
Definition try_catch {A} (m : M A) (handler : JsError -> M A) : M A :=
  fun st => match m st with
            | (inl a, st') => (inl a, st')
            | (inr e, st') => handler e st'
            end.
Definition modify (f : DbState -> DbState) : M unit := fun st => (inl tt, f st).
Definition gets {A} (f : DbState -> A) : M A := fun st => (inl (f st), st).

Notation "x <-! m ;; k" := (bind m (fun x => k))
  (at level 100, m at next level, right associativity).

(** The environment the module runs in: [require('better-sqlite3')] (first
    attempt, and the retry after a successful rebuild), the helpers of
    native-module-helper.js, [new Database(path, {readonly, fileMustExist})]
    and [JSON.parse]. *)
Record Env := {
  require_first : option JsError;
  isModuleVersionError : JsError -> bool;
  attemptAutoRebuild : JsError -> bool;
  require_retry : option JsError;
  openDb : string -> Conn + JsError;
  json_parse : string -> Parsed + JsError
}.

Section WithEnv.
Variable env : Env.

Definition rebuild_restart_msg : string :=
  "Native module rebuild completed. Please restart the server to apply the fix.".
Definition rebuild_failed_msg : string :=
  "Failed to auto-rebuild native module. Please run manually:
  npm rebuild better-sqlite3
Or if using npx, find the package location in the error and run:
  cd /path/to/better-sqlite3 && npm rebuild".

Definition loadDatabaseModule : M unit :=
  loaded <-! gets Database_loaded ;;
  if loaded then ret tt else
  cached <-! gets moduleLoadError ;;
  match cached with
  | Some e => throw e
  | None =>
      match require_first env with
      | None => modify set_loaded
      | Some error =>
          if isModuleVersionError env error then
            if attemptAutoRebuild env error then
              match require_retry env with
              | None => modify set_loaded
              | Some _ =>
                  let e := NativeModuleError rebuild_restart_msg in
                  _ <-! modify (set_load_error e) ;; throw e
              end
            else
              let e := NativeModuleError rebuild_failed_msg in
              _ <-! modify (set_load_error e) ;; throw e
          else throw error
      end
  end.

Definition open_and_cache (dbPath : string) : M Conn :=
  match openDb env dbPath with
  | inl db => c <-! gets dbCache ;; _ <-! modify (set_cache (<[dbPath := db]> c)) ;; ret db
  | inr e => throw e
  end.

Definition getDatabaseConnection (dbPath : string) : M Conn :=
  _ <-! loadDatabaseModule ;;
  c <-! gets dbCache ;;
  match c !! dbPath with
  | Some cachedDb =>
      if conn_open cachedDb then ret cachedDb
      else _ <-! modify (set_cache (delete dbPath c)) ;; open_and_cache dbPath
  | None => open_and_cache dbPath
  end.

Definition no_auth_msg : string := "No auth status found in database".
Definition missing_apiKey_msg : string := "Auth data missing apiKey field".
Definition null_apiKey_msg : string := "Cannot read properties of null (reading 'apiKey')".

Definition read_auth (db : Conn) : M Parsed :=
  match conn_query db with
  | QFail e => throw e
  | QNoRow | QRow None => throw (Error no_auth_msg)
  | QRow (Some value) =>
      if SignatureCache.is_empty_string value then throw (Error no_auth_msg) else
      match json_parse env value with
      | inr e => throw e
      | inl PNull => throw (Error null_apiKey_msg)
      | inl (PObject fields) =>
          if truthy (get fields "apiKey") then ret (PObject fields)
          else throw (Error missing_apiKey_msg)
      | inl POther => throw (Error missing_apiKey_msg)
      end
  end.

Definition not_found_msg (dbPath : string) : string :=
  String.append "Database not found at "
    (String.append dbPath ". Make sure Antigravity is installed and you are logged in.").

(** The [catch (error)] block of [getAuthStatus]. *)
Definition getAuthStatus_catch (dbPath : string) (error : JsError) : M Parsed :=
  if bool_decide (err_code error = Some "SQLITE_CANTOPEN") then
    throw (Error (not_found_msg dbPath))
  else if includes (err_message error) "No auth status"
          || includes (err_message error) "missing apiKey" then throw error
  else if err_native error then throw error
  else throw (Error (String.append "Failed to read Antigravity database: "
                                    (err_message error))).

Definition getAuthStatus (dbPath : string) : M Parsed :=
  try_catch (db <-! getDatabaseConnection dbPath ;; read_auth db)
            (getAuthStatus_catch dbPath).

Definition isDatabaseAccessible (dbPath : string) : M bool :=
  try_catch (_ <-! getDatabaseConnection dbPath ;; ret true) (fun _ => ret false).

End WithEnv.

(** The prefix [getAuthStatus] puts before an error it wraps. *)
Definition failed_prefix : string := "Failed to read Antigravity database: ".

(** One iteration of [closeAllConnections]:
    [try { if (db.open) db.close(); } catch (e) { console.error(...); }].
    [close db] is the error [db.close()] throws, if any. *)
Definition close_one (close : Conn -> option JsError) (db : Conn) : M unit :=
  try_catch (if conn_open db then
               match close db with Some e => throw e | None => ret tt end
             else ret tt)
            (fun _ => ret tt).

(** [for (const [path, db] of dbCache.entries()) ...; dbCache.clear();] *)
Definition closeAllConnections (close : Conn -> option JsError) : M unit :=
  c <-! gets dbCache ;;
  _ <-! fold_left (fun acc (entry : string * Conn) => _ <-! acc ;; close_one close entry.2)
                  (map_to_list c) (ret tt) ;;
  modify (set_cache ∅).

End Database.


(* ===================================================================== *)
(** ** Dispatcher (spec 4.2) *)
(* ===================================================================== *)

Module Dispatcher.

(** Modelled from the spec: the Dispatcher's attempt loop (the request
    handlers streaming-handler.js and message-handler.js under src/cloudcode,
    exercised by tests/test-endpoint-failover.cjs, are not in this tree).
    Spec 4.2 steps 3 to 5 for one account whose credentials are resolved:
    call the current endpoint; on a 2xx feed the body to the StreamTranslator
    and forward its events; on a 503 whose [details[].reason] is
    MODEL_CAPACITY_EXHAUSTED, if the attempt counter is below
    [maxCapacityRetries], wait [BackoffPlan[attempt]] (clamped to the last
    tier), advance to the next endpoint of the fixed fallback list (no
    wrapping) and retry, else surface a capacity-exhausted error.  Any other
    status ends this loop with an error (the spec hands it to account
    rotation, which is outside this loop).  Once body bytes have been
    forwarded, a capacity signal inside the body is a terminal stream error. *)

(** One SSE [data:] block of a 2xx body, as the translator reads it. *)
Inductive Chunk :=
| CData (text : string)          (* a frame carrying text *)
| CMalformed                      (* an unparseable frame: skipped *)
| CCapacity.                      (* a capacity-exhaustion signal mid-body *)

(** What the transport answers for one call. *)
Inductive Response :=
| ROk (body : list Chunk)
| RError (status : Z) (reasons : list string).

Inductive ErrKind :=
| CapacityExhausted
| RetriesExhausted
| UpstreamError (status : Z).

Inductive StreamEvent :=
| EvText (text : string)
| EvError (kind : ErrKind)
| EvDone.

(** The observable history of one logical request: upstream calls, backoff
    waits and the events forwarded to the caller, in order. *)
Inductive TraceItem :=
| TCall (endpoint : string)
| TWait (ms : Z)
| TEvent (ev : StreamEvent).

Definition is_capacity_exhausted (status : Z) (reasons : list string) : bool :=
  bool_decide (status = 503) && existsb (String.eqb "MODEL_CAPACITY_EXHAUSTED") reasons.

(** StreamTranslator: a fresh decode state per attempt. *)
Fixpoint translate (body : list Chunk) : list StreamEvent :=
  match body with
  | [] => [EvDone]
  | CData s :: rest => EvText s :: translate rest
  | CMalformed :: rest => translate rest
  | CCapacity :: _ => [EvError CapacityExhausted]
  end.

(** The text of the data frames of a body prefix, in order. *)
Fixpoint data_texts (body : list Chunk) : list string :=
  match body with
  | [] => []
  | CData s :: rest => s :: data_texts rest
  | _ :: rest => data_texts rest
  end.

Definition is_event (t : TraceItem) : bool :=
  match t with TEvent _ => true | _ => false end.

Fixpoint calls_of (tr : list TraceItem) : list string :=
  match tr with
  | [] => []
  | TCall e :: rest => e :: calls_of rest
  | _ :: rest => calls_of rest
  end.

Fixpoint events_of (tr : list TraceItem) : list StreamEvent :=
  match tr with
  | [] => []
  | TEvent ev :: rest => ev :: events_of rest
  | _ :: rest => events_of rest
  end.

(** The aggregated entry point's result: the concatenated text, or the
    first error event. *)
Fixpoint aggregate (evs : list StreamEvent) : string + ErrKind :=
  match evs with
  | [] => inl ""
  | EvText s :: rest =>
      match aggregate rest with
      | inl t => inl (String.append s t)
      | inr k => inr k
      end
  | EvError k :: _ => inr k
  | EvDone :: rest => aggregate rest
  end.

Section WithTransport.

(** The transport (the mocked [fetch]) and the configuration surface. *)
Variable fetch : string -> Response.
Variable maxCapacityRetries : nat.
Variable capacityBackoffTiersMs : list Z.

Definition backoff_tier (attempt : nat) : Z :=
  nth attempt capacityBackoffTiersMs (List.last capacityBackoffTiersMs 0).

Fixpoint attempt_loop (endpoints : list string) (attempt : nat) : list TraceItem :=
  match endpoints with
  | [] => [TEvent (EvError RetriesExhausted)]
  | e :: rest =>
      TCall e ::
      match fetch e with
      | ROk body => map TEvent (translate body)
      | RError status reasons =>
          if is_capacity_exhausted status reasons then
            if (attempt <? maxCapacityRetries)%nat
            then TWait (backoff_tier attempt) :: attempt_loop rest (S attempt)
            else [TEvent (EvError CapacityExhausted)]
          else [TEvent (EvError (UpstreamError status))]
      end
  end.

(** The streaming entry point: the whole trace, events forwarded live. *)
Definition sendMessageStream (endpoints : list string) : list TraceItem :=
  attempt_loop endpoints 0.

(** The aggregated entry point: same loop, events accumulated. *)
Definition sendMessage (endpoints : list string) : list string * (string + ErrKind) :=
  let tr := attempt_loop endpoints 0 in
  (calls_of tr, aggregate (events_of tr)).

End WithTransport.

End Dispatcher.


(* ===================================================================== *)
(** ** AccountPool (spec 3 and 4.1) *)
(* ===================================================================== *)

Module AccountPool.

(** Modelled from the spec: AccountPool's [selectAccount] (the account
    manager under src/account-manager is not in this tree; the tests only mock
    it).  An account is available iff [rateLimitedUntil] is absent or not in
    the future; an account marked invalid is permanently excluded from
    selection; among the selectable accounts the one with the fewest
    [consecutiveFailures] is chosen, ties broken by least-recently-used; if
    none is selectable the result is [{account: null, waitMs}] with [waitMs]
    the minimum remaining rate-limit duration across all accounts. *)
Record Account := {
  email : string;
  rateLimitedUntil : option Z;
  consecutiveFailures : nat;
  lastUsed : Z;
  isInvalid : bool
}.

Record Selection := { account : option Account; waitMs : Z }.

Definition isAvailable (now : Z) (a : Account) : bool :=
  match rateLimitedUntil a with
  | None => true
  | Some t => t <=? now
  end.

Definition selectable (now : Z) (a : Account) : bool :=
  isAvailable now a && negb (isInvalid a).

Definition getAvailableAccounts (now : Z) (pool : list Account) : list Account :=
  filter (fun a => isAvailable now a = true) pool.

(** [a] is preferred over [b]: fewer failures, then least recently used. *)
Definition better (a b : Account) : bool :=
  (consecutiveFailures a <? consecutiveFailures b)%nat
  || ((consecutiveFailures a =? consecutiveFailures b)%nat && (lastUsed a <? lastUsed b)).

Fixpoint pick_best (best : Account) (rest : list Account) : Account :=
  match rest with
  | [] => best
  | a :: rest' => pick_best (if better a best then a else best) rest'
  end.

Definition pick (cands : list Account) : option Account :=
  match cands with
  | [] => None
  | a :: rest => Some (pick_best a rest)
  end.

Definition remaining (now : Z) (a : Account) : Z :=
  match rateLimitedUntil a with
  | None => 0
  | Some t => Z.max 0 (t - now)
  end.

Definition minWait (now : Z) (pool : list Account) : Z :=
  match pool with
  | [] => 0
  | a :: rest => fold_left (fun m b => Z.min m (remaining now b)) rest (remaining now a)
  end.

Definition touch (now : Z) (chosen : Account) (pool : list Account) : list Account :=
  map (fun b => if String.eqb (email b) (email chosen)
                then {| email := email b; rateLimitedUntil := rateLimitedUntil b;
                        consecutiveFailures := consecutiveFailures b;
                        lastUsed := now; isInvalid := isInvalid b |}
                else b) pool.

Definition selectAccount (now : Z) (pool : list Account) : Selection * list Account :=
  match pick (filter (fun a => selectable now a = true) pool) with
  | Some a => ({| account := Some a; waitMs := 0 |}, touch now a pool)
  | None => ({| account := None; waitMs := minWait now pool |}, pool)
  end.

End AccountPool.


(* ===================================================================== *)
(** ** Concrete inputs *)
(* ===================================================================== *)

Module Fixtures.

(** The mock transport of tests/test-endpoint-failover.cjs: the daily
    endpoint answers the capacity-exhausted 503, the prod endpoint a stream. *)
Definition mock_fetch (url : string) : Dispatcher.Response :=
  if String.eqb url "daily" then Dispatcher.RError 503 ["MODEL_CAPACITY_EXHAUSTED"]
  else if String.eqb url "prod" then Dispatcher.ROk [Dispatcher.CData "Stream success"]
  else Dispatcher.RError 500 [].

(** A transport whose 2xx stream is cut by a capacity signal after a frame. *)
Definition cut_fetch (url : string) : Dispatcher.Response :=
  Dispatcher.ROk [Dispatcher.CData "partial"; Dispatcher.CCapacity].

Definition invalid_account : AccountPool.Account :=
  {| AccountPool.email := "test@example.com"; AccountPool.rateLimitedUntil := None;
     AccountPool.consecutiveFailures := 0; AccountPool.lastUsed := 0;
     AccountPool.isInvalid := true |}.

Definition limited_account (mail : string) (until : Z) : AccountPool.Account :=
  {| AccountPool.email := mail; AccountPool.rateLimitedUntil := Some until;
     AccountPool.consecutiveFailures := 0; AccountPool.lastUsed := 0;
     AccountPool.isInvalid := false |}.

Definition initial_db_state : Database.DbState :=
  {| Database.Database_loaded := false; Database.moduleLoadError := None;
     Database.dbCache := ∅ |}.

(** better-sqlite3 loads; opening the path throws the given error. *)
Definition open_fails_env (e : Database.JsError) : Database.Env :=
  {| Database.require_first := None;
     Database.isModuleVersionError := fun _ => false;
     Database.attemptAutoRebuild := fun _ => false;
     Database.require_retry := None;
     Database.openDb := fun _ => inr e;
     Database.json_parse := fun _ => inl Database.POther |}.

(** better-sqlite3 throws for a file in a missing directory a TypeError that
    has no [code]. *)
Definition missing_dir_error : Database.JsError :=
  {| Database.err_code := None;
     Database.err_message := "Cannot open database because the directory does not exist";
     Database.err_native := false |}.

Definition cantopen_error : Database.JsError :=
  {| Database.err_code := Some "SQLITE_CANTOPEN";
     Database.err_message := "unable to open database file";
     Database.err_native := false |}.

(** The native module was built for another Node.js version and the
    automatic rebuild fails. *)
Definition rebuild_fails_env : Database.Env :=
  {| Database.require_first :=
       Some {| Database.err_code := Some "ERR_DLOPEN_FAILED";
               Database.err_message := "was compiled against a different Node.js version";
               Database.err_native := false |};
     Database.isModuleVersionError := fun _ => true;
     Database.attemptAutoRebuild := fun _ => false;
     Database.require_retry := None;
     Database.openDb := fun _ => inr cantopen_error;
     Database.json_parse := fun _ => inl Database.POther |}.

(** better-sqlite3 loads and opens every path; the auth query yields [q];
    [JSON.parse] reads ["null"] and rejects everything else. *)
Definition open_ok_env (q : Database.QueryResult) : Database.Env :=
  {| Database.require_first := None;
     Database.isModuleVersionError := fun _ => false;
     Database.attemptAutoRebuild := fun _ => false;
     Database.require_retry := None;
     Database.openDb := fun _ => inl {| Database.conn_open := true; Database.conn_query := q |};
     Database.json_parse := fun s =>
       if String.eqb s "null" then inl Database.PNull
       else inr {| Database.err_code := None;
                   Database.err_message := "Unexpected token in JSON";
                   Database.err_native := false |} |}.

Definition state_with (p : string) (c : Database.Conn) : Database.DbState :=
  {| Database.Database_loaded := true; Database.moduleLoadError := None;
     Database.dbCache := <[p := c]> ∅ |}.

(** Argument objects as Gemini sends them to grep. *)
Definition args_desc_query : gmap string Mappers.jsval :=
  <["query" := Mappers.JString "q"]> (<["description" := Mappers.JString "d"]> ∅).
Definition args_includes : gmap string Mappers.jsval :=
  <["includes" := Mappers.JArray [Mappers.JString "*.js"; Mappers.JNumber 1; Mappers.JString "*.ts"]]> ∅.
Definition args_dash_n : gmap string Mappers.jsval :=
  <["-n" := Mappers.JString "TRUE"]> ∅.
Definition args_bools : gmap string Mappers.jsval :=
  <["regex" := Mappers.JString "1"]> (<["ignore_case" := Mappers.JString "yes"]> ∅).

(** A thinking signature of 64 characters. *)
Definition long_sig : string :=
  "EqQBCkgIARABGAIiQPr3sJjJ1uX2bVd8kO5tH9qN3aZcWmLxYyRgTfUeDiCoBpAs".

End Fixtures.

(* ===================================================================== *)
(** * Proofs *)
(* ===================================================================== *)

Module MappersProofs.
Import Mappers.

Lemma get_delete_eq (a : gmap string jsval) k : get (delete k a) k = JUndefined.
Proof. unfold get. by rewrite lookup_delete_eq. Qed.

Lemma get_lookup_eq (a b : gmap string jsval) k : a !! k = b !! k -> get a k = get b k.
Proof. unfold get. by intros ->. Qed.

Lemma remap_key_frame src dst (a : gmap string jsval) k :
  k <> src -> k <> dst -> remap_key src dst a !! k = a !! k.
Proof.
  intros H1 H2. unfold remap_key.
  destruct (negb _); [|done]. destruct (is_undefined _).
  - rewrite lookup_insert_ne by congruence. by rewrite lookup_delete_ne by congruence.
  - by rewrite lookup_delete_ne by congruence.
Qed.

Lemma remap_key_src src dst (a : gmap string jsval) :
  src <> dst -> get (remap_key src dst a) src = JUndefined.
Proof.
  intros Hne. unfold remap_key.
  destruct (get a src) eqn:Hs; simpl; try done;
  (destruct (is_undefined _);
   [unfold get; rewrite lookup_insert_ne by congruence; by rewrite lookup_delete_eq
   | apply get_delete_eq]).
Qed.

Lemma remap_key_noop src dst (a : gmap string jsval) :
  get a src = JUndefined -> remap_key src dst a = a.
Proof. intros H. unfold remap_key. by rewrite H. Qed.

Lemma remap_includes_frame (a : gmap string jsval) k :
  k <> "includes" -> k <> "include" -> remap_includes a !! k = a !! k.
Proof.
  intros H1 H2. unfold remap_includes.
  destruct (negb _); [|done]. destruct (is_undefined _); [|by rewrite lookup_delete_ne].
  destruct (SignatureCache.is_empty_string _); [by rewrite lookup_delete_ne|].
  rewrite lookup_insert_ne by congruence. by rewrite lookup_delete_ne.
Qed.

Lemma remap_includes_src (a : gmap string jsval) :
  get (remap_includes a) "includes" = JUndefined.
Proof.
  unfold remap_includes.
  destruct (negb (is_undefined (get a "includes"))) eqn:Hu.
  - destruct (is_undefined (get (delete "includes" a) "include")); [|apply get_delete_eq].
    destruct (SignatureCache.is_empty_string _); [apply get_delete_eq|].
    unfold get. rewrite lookup_insert_ne by discriminate. by rewrite lookup_delete_eq.
  - destruct (get a "includes"); done.
Qed.

Lemma remap_includes_noop (a : gmap string jsval) :
  get a "includes" = JUndefined -> remap_includes a = a.
Proof. intros H. unfold remap_includes. by rewrite H. Qed.

Lemma remap_dash_n_frame (a : gmap string jsval) k :
  k <> "-n" -> k <> "lineNumbers" -> remap_dash_n a !! k = a !! k.
Proof.
  intros H1 H2. unfold remap_dash_n.
  destruct (negb _); [|done]. destruct (coerceToBool _); [|by rewrite lookup_delete_ne].
  destruct (is_undefined _); [|by rewrite lookup_delete_ne].
  rewrite lookup_insert_ne by congruence. by rewrite lookup_delete_ne.
Qed.

Lemma remap_dash_n_src (a : gmap string jsval) :
  get (remap_dash_n a) "-n" = JUndefined.
Proof.
  unfold remap_dash_n.
  destruct (negb (is_undefined (get a "-n"))) eqn:Hu.
  - destruct (coerceToBool (get a "-n")); [|apply get_delete_eq].
    destruct (is_undefined (get (delete "-n" a) "lineNumbers")); [|apply get_delete_eq].
    unfold get. rewrite lookup_insert_ne by discriminate. by rewrite lookup_delete_eq.
  - destruct (get a "-n"); done.
Qed.

Lemma remap_dash_n_noop (a : gmap string jsval) :
  get a "-n" = JUndefined -> remap_dash_n a = a.
Proof. intros H. unfold remap_dash_n. by rewrite H. Qed.

Lemma coerce_param_frame (a : gmap string jsval) p k :
  k <> p -> coerce_param a p !! k = a !! k.
Proof.
  intros Hne. unfold coerce_param.
  destruct (get a p); try done. destruct (coerceToBool _); [|done].
  by rewrite lookup_insert_ne by congruence.
Qed.

Lemma coerce_param_settles (a : gmap string jsval) p :
  param_settled (get (coerce_param a p) p).
Proof.
  unfold coerce_param.
  destruct (get a p) as [| | | |s| |] eqn:Hp; try (rewrite Hp; done).
  destruct (coerceToBool (JString s)) eqn:Hc.
  - unfold get. rewrite lookup_insert_eq. done.
  - rewrite Hp. exact Hc.
Qed.

Lemma coerce_param_noop (a : gmap string jsval) p :
  param_settled (get a p) -> coerce_param a p = a.
Proof.
  unfold coerce_param, param_settled. destruct (get a p); try done. by intros ->.
Qed.

Lemma coerce_params_frame (ps : list string) (a : gmap string jsval) k :
  k ∉ ps -> fold_left coerce_param ps a !! k = a !! k.
Proof.
  revert a. induction ps as [|p ps IH]; intros a Hk; simpl; [done|].
  apply not_elem_of_cons in Hk as [Hkp Hk].
  rewrite IH by done. by apply coerce_param_frame.
Qed.

Lemma coerce_params_settle (ps : list string) (a : gmap string jsval) :
  forall p, p ∈ ps -> param_settled (get (fold_left coerce_param ps a) p).
Proof.
  revert a. induction ps as [|q ps IH]; intros a p Hp; simpl.
  - by apply elem_of_nil in Hp.
  - destruct (decide (p ∈ ps)) as [Hin|Hnin]; [by apply IH|].
    apply elem_of_cons in Hp as [->|]; [|done].
    rewrite (get_lookup_eq _ (coerce_param a q) q) by (by apply coerce_params_frame).
    apply coerce_param_settles.
Qed.

Lemma coerce_params_noop (ps : list string) (a : gmap string jsval) :
  (forall p, p ∈ ps -> param_settled (get a p)) -> fold_left coerce_param ps a = a.
Proof.
  revert a. induction ps as [|p ps IH]; intros a Hs; simpl; [done|].
  rewrite coerce_param_noop by (apply Hs; apply elem_of_cons; by left).
  apply IH. intros q Hq. apply Hs. apply elem_of_cons. by right.
Qed.

Lemma remap_key_get_frame src dst (a : gmap string jsval) k :
  k <> src -> k <> dst -> get (remap_key src dst a) k = get a k.
Proof. intros. apply get_lookup_eq. by apply remap_key_frame. Qed.

Lemma remap_includes_get_frame (a : gmap string jsval) k :
  k <> "includes" -> k <> "include" -> get (remap_includes a) k = get a k.
Proof. intros. apply get_lookup_eq. by apply remap_includes_frame. Qed.

Lemma remap_dash_n_get_frame (a : gmap string jsval) k :
  k <> "-n" -> k <> "lineNumbers" -> get (remap_dash_n a) k = get a k.
Proof. intros. apply get_lookup_eq. by apply remap_dash_n_frame. Qed.

Lemma coerce_params_get_frame (ps : list string) (a : gmap string jsval) k :
  k ∉ ps -> get (fold_left coerce_param ps a) k = get a k.
Proof. intros. apply get_lookup_eq. by apply coerce_params_frame. Qed.

Ltac not_in_params :=
  unfold boolParams; rewrite !not_elem_of_cons;
  repeat split; try discriminate; apply not_elem_of_nil.

Lemma remap_grep_clean (a : gmap string jsval) : grep_clean (remap_grep a).
Proof.
  unfold remap_grep, grep_clean.
  split; [|split; [|split; [|split; [|split]]]].
  - rewrite coerce_params_get_frame by not_in_params.
    rewrite remap_dash_n_get_frame by discriminate.
    rewrite remap_key_get_frame by discriminate.
    rewrite remap_includes_get_frame by discriminate.
    rewrite remap_key_get_frame by discriminate.
    apply remap_key_src. discriminate.
  - rewrite coerce_params_get_frame by not_in_params.
    rewrite remap_dash_n_get_frame by discriminate.
    rewrite remap_key_get_frame by discriminate.
    rewrite remap_includes_get_frame by discriminate.
    apply remap_key_src. discriminate.
  - rewrite coerce_params_get_frame by not_in_params.
    rewrite remap_dash_n_get_frame by discriminate.
    rewrite remap_key_get_frame by discriminate.
    apply remap_includes_src.
  - rewrite coerce_params_get_frame by not_in_params.
    rewrite remap_dash_n_get_frame by discriminate.
    apply remap_key_src. discriminate.
  - rewrite coerce_params_get_frame by not_in_params.
    apply remap_dash_n_src.
  - apply coerce_params_settle.
Qed.

Lemma remap_grep_fixed (a : gmap string jsval) : grep_clean a -> remap_grep a = a.
Proof.
  intros (Hd & Hq & Hi & Hc & Hn & Hb). unfold remap_grep.
  rewrite (remap_key_noop "description") by done.
  rewrite (remap_key_noop "query") by done.
  rewrite remap_includes_noop by done.
  rewrite (remap_key_noop "ignore_case") by done.
  rewrite remap_dash_n_noop by done.
  by apply coerce_params_noop.
Qed.

Lemma remap_glob_clean (a : gmap string jsval) : glob_clean (remap_glob a).
Proof.
  unfold remap_glob, glob_clean. split.
  - rewrite remap_key_get_frame by discriminate. apply remap_key_src. discriminate.
  - apply remap_key_src. discriminate.
Qed.

Lemma remap_glob_fixed (a : gmap string jsval) : glob_clean a -> remap_glob a = a.
Proof.
  intros [Hd Hq]. unfold remap_glob.
  rewrite (remap_key_noop "description") by done. by apply remap_key_noop.
Qed.

Lemma remap_key_dst_kept src dst (a : gmap string jsval) p :
  src <> dst -> a !! dst = Some p -> p <> JUndefined ->
  remap_key src dst a !! dst = Some p.
Proof.
  intros Hne Hp Hu. unfold remap_key.
  destruct (negb _); [|done].
  assert (Hg : get (delete src a) dst = p).
  { unfold get. rewrite lookup_delete_ne by congruence. by rewrite Hp. }
  rewrite Hg. destruct p; try done; simpl; by rewrite lookup_delete_ne by congruence.
Qed.

Lemma remap_key_src_removed src dst (a : gmap string jsval) v :
  src <> dst -> a !! src = Some v -> v <> JUndefined ->
  remap_key src dst a !! src = None.
Proof.
  intros Hne Hv Hu. unfold remap_key.
  assert (Hg : get a src = v) by (unfold get; by rewrite Hv).
  rewrite Hg. destruct v; try done; simpl;
  (destruct (is_undefined _);
   [rewrite lookup_insert_ne by congruence|]; by rewrite lookup_delete_eq).
Qed.

(** The part of [remap_grep] after the two [pattern] remappings leaves
    [pattern], [description] and [query] alone. *)
Lemma grep_tail_frame (a : gmap string jsval) k :
  k = "pattern" \/ k = "description" \/ k = "query" ->
  fold_left coerce_param boolParams
    (remap_dash_n (remap_key "ignore_case" "ignoreCase" (remap_includes a))) !! k = a !! k.
Proof.
  intros Hk.
  rewrite coerce_params_frame
    by (destruct Hk as [->|[->| ->]]; not_in_params).
  rewrite remap_dash_n_frame by (destruct Hk as [->|[->| ->]]; discriminate).
  rewrite remap_key_frame by (destruct Hk as [->|[->| ->]]; discriminate).
  rewrite remap_includes_frame by (destruct Hk as [->|[->| ->]]; discriminate).
  done.
Qed.

Lemma pattern_steps_kept (a : gmap string jsval) m p v :
  m = "description" \/ m = "query" ->
  a !! "pattern" = Some p -> p <> JUndefined ->
  a !! m = Some v -> v <> JUndefined ->
  remap_key "query" "pattern" (remap_key "description" "pattern" a) !! "pattern" = Some p /\
  remap_key "query" "pattern" (remap_key "description" "pattern" a) !! m = None.
Proof.
  intros Hm Hp Hpu Hv Hvu.
  assert (H1 : remap_key "description" "pattern" a !! "pattern" = Some p)
    by (apply remap_key_dst_kept; done).
  split; [apply remap_key_dst_kept; done|].
  destruct Hm as [->| ->].
  - rewrite remap_key_frame by discriminate.
    apply (remap_key_src_removed _ _ _ v); done.
  - apply (remap_key_src_removed _ _ _ v); [done| |done].
    rewrite remap_key_frame by discriminate. done.
Qed.

(** C6: [remapFunctionCallArgs] is idempotent for every tool name and every
    arguments object; in particular arguments already in canonical form (no
    malformed key, no boolean parameter left as a coercible string) are left
    unchanged. *)
Theorem remapFunctionCallArgs_idempotent :
  (forall (toolName : string) (args : gmap string jsval),
     remapFunctionCallArgs toolName (remapFunctionCallArgs toolName args)
     = remapFunctionCallArgs toolName args) /\
  (forall (toolName : string) (args : gmap string jsval),
     grep_clean args -> remapFunctionCallArgs toolName args = args).
Proof.
  split.
  - intros t a. unfold remapFunctionCallArgs.
    destruct (String.eqb (toLowerCase t) "grep") eqn:Hg.
    + apply remap_grep_fixed, remap_grep_clean.
    + destruct (String.eqb (toLowerCase t) "glob"); [|done].
      apply remap_glob_fixed, remap_glob_clean.
  - intros t a Hc. unfold remapFunctionCallArgs.
    destruct (String.eqb (toLowerCase t) "grep"); [by apply remap_grep_fixed|].
    destruct (String.eqb (toLowerCase t) "glob"); [|done].
    apply remap_glob_fixed. destruct Hc as (Hd & Hq & _). by split.
Qed.

(** C9: for the tools grep and glob, when [args] holds a defined malformed
    key ([description] or [query]) and a defined [pattern], the remapper
    deletes the malformed key and keeps the value of [pattern]. *)
Theorem remap_malformed_key_never_overwrites_pattern
    (toolName : string) (args : gmap string jsval) (m : string) (p v : jsval) :
  toLowerCase toolName = "grep" \/ toLowerCase toolName = "glob" ->
  m = "description" \/ m = "query" ->
  args !! "pattern" = Some p -> p <> JUndefined ->
  args !! m = Some v -> v <> JUndefined ->
  remapFunctionCallArgs toolName args !! "pattern" = Some p /\
  remapFunctionCallArgs toolName args !! m = None.
Proof.
  intros Ht Hm Hp Hpu Hv Hvu.
  destruct (pattern_steps_kept args m p v) as [HP HM]; try done.
  unfold remapFunctionCallArgs.
  destruct Ht as [Ht|Ht].
  - replace (String.eqb (toLowerCase toolName) "grep") with true
      by (rewrite Ht; reflexivity).
    cbv beta iota. unfold remap_grep. rewrite !grep_tail_frame by (destruct Hm; auto). done.
  - replace (String.eqb (toLowerCase toolName) "grep") with false
      by (rewrite Ht; reflexivity).
    replace (String.eqb (toLowerCase toolName) "glob") with true
      by (rewrite Ht; reflexivity).
    cbv beta iota. unfold remap_glob. done.
Qed.

End MappersProofs.

Module DatabaseProofs.
Import Mappers Database.

Lemma loadDatabaseModule_cache (env : Env) st r st' :
  loadDatabaseModule env st = (r, st') -> dbCache st' = dbCache st.
Proof.
  unfold loadDatabaseModule, bind, gets, ret, modify, throw.
  destruct (Database_loaded st); [by intros [= _ <-]|].
  destruct (moduleLoadError st); [by intros [= _ <-]|].
  destruct (require_first env) as [err|]; [|by intros [= _ <-]].
  destruct (isModuleVersionError env err); [|by intros [= _ <-]].
  destruct (attemptAutoRebuild env err); [|by intros [= _ <-]].
  destruct (require_retry env); by intros [= _ <-].
Qed.

(** The [catch] block of [getAuthStatus] always rethrows. *)
Lemma getAuthStatus_catch_throws dbPath e st :
  exists e', getAuthStatus_catch dbPath e st = (inr e', st).
Proof.
  unfold getAuthStatus_catch, throw. case_decide; [by eexists|].
  destruct (_ || _); [by eexists|]. destruct (err_native e); by eexists.
Qed.

Lemma read_auth_ok (env : Env) db st r st' :
  read_auth env db st = (inl r, st') ->
  exists fields, r = PObject fields /\ truthy (get fields "apiKey") = true.
Proof.
  unfold read_auth, throw, ret.
  destruct (conn_query db) as [[value|]| |e]; try discriminate.
  destruct (SignatureCache.is_empty_string value); [discriminate|].
  destruct (json_parse env value) as [[fields| |]|e]; try discriminate.
  destruct (truthy (get fields "apiKey")) eqn:Ht; [|discriminate].
  intros [= <- _]. by exists fields.
Qed.


Lemma getDatabaseConnection_open_fails (env : Env) dbPath st st1 e :
  loadDatabaseModule env st = (inl tt, st1) ->
  (forall c, dbCache st !! dbPath = Some c -> conn_open c = false) ->
  openDb env dbPath = inr e ->
  exists st2, getDatabaseConnection env dbPath st = (inr e, st2).
Proof.
  intros Hl Hc Ho. pose proof (loadDatabaseModule_cache _ _ _ _ Hl) as Hcache.
  unfold getDatabaseConnection, bind at 1. rewrite Hl.
  unfold bind, gets. rewrite Hcache.
  destruct (dbCache st !! dbPath) as [c|] eqn:Hp.
  - rewrite (Hc c eq_refl). unfold modify, open_and_cache. rewrite Ho. by eexists.
  - unfold open_and_cache. rewrite Ho. by eexists.
Qed.

Lemma not_found_msg_classified dbPath :
  includes (not_found_msg dbPath) "Database not found" = true.
Proof. reflexivity. Qed.

(** C8: [getAuthStatus] either returns the parsed auth record, whose
    [apiKey] is truthy, or throws.  When the native module loads, no open
    connection for the path is cached and opening the database fails, the
    error is classified as "Database not found" only when it carries the
    SQLite code [SQLITE_CANTOPEN]; an opening error without that code, not a
    [NativeModuleError] and not mentioning the auth-data phrases (such as
    better-sqlite3's error for a file in a missing directory), is wrapped as
    "Failed to read Antigravity database: ..." instead. *)
Theorem getAuthStatus_result_and_classification (env : Env) (dbPath : string) (st : DbState) :
  (forall r, fst (getAuthStatus env dbPath st) = inl r ->
     exists fields, r = PObject fields /\ truthy (get fields "apiKey") = true) /\
  (forall st1 e,
     loadDatabaseModule env st = (inl tt, st1) ->
     (forall c, dbCache st !! dbPath = Some c -> conn_open c = false) ->
     openDb env dbPath = inr e ->
     (err_code e = Some "SQLITE_CANTOPEN" ->
        fst (getAuthStatus env dbPath st) = inr (Error (not_found_msg dbPath)) /\
        includes (not_found_msg dbPath) "Database not found" = true) /\
     (err_code e <> Some "SQLITE_CANTOPEN" ->
        includes (err_message e) "No auth status" = false ->
        includes (err_message e) "missing apiKey" = false ->
        err_native e = false ->
        fst (getAuthStatus env dbPath st) =
          inr (Error (String.append "Failed to read Antigravity database: " (err_message e))))).
Proof.
  split.
  - intros r. unfold getAuthStatus, try_catch.
    destruct (bind _ _ st) as [[a|e] st'] eqn:Hb.
    + simpl. intros [= <-]. unfold bind in Hb.
      destruct (getDatabaseConnection env dbPath st) as [[db|e] st''] eqn:Hg; [|discriminate].
      eapply read_auth_ok. exact Hb.
    + destruct (getAuthStatus_catch_throws dbPath e st') as [e' He]. rewrite He. discriminate.
  - intros st1 e Hl Hc Ho.
    destruct (getDatabaseConnection_open_fails env dbPath st st1 e Hl Hc Ho) as [st2 Hg].
    split; intros Hcode;
      unfold getAuthStatus, try_catch, bind at 1; rewrite Hg;
      unfold getAuthStatus_catch, throw.
    + destruct (bool_decide (err_code e = Some "SQLITE_CANTOPEN")) eqn:Hd;
        [|apply bool_decide_eq_false_1 in Hd; contradiction].
      split; [done|apply not_found_msg_classified].
    + intros Hn1 Hn2 Hnat.
      destruct (bool_decide (err_code e = Some "SQLITE_CANTOPEN")) eqn:Hd;
        [apply bool_decide_eq_true_1 in Hd; contradiction|].
      rewrite Hn1, Hn2, Hnat. done.
Qed.

(** C10: [isDatabaseAccessible] never throws, whatever the environment (a
    missing file, a module that fails to load): it returns [true] exactly
    when [getDatabaseConnection] yields a connection, [false] otherwise. *)
Theorem isDatabaseAccessible_total (env : Env) (dbPath : string) (st : DbState) :
  exists b, fst (isDatabaseAccessible env dbPath st) = inl b /\
    (b = true <-> exists db, fst (getDatabaseConnection env dbPath st) = inl db).
Proof.
  unfold isDatabaseAccessible, try_catch, bind, ret.
  destruct (getDatabaseConnection env dbPath st) as [[db|e] st'].
  - exists true. simpl. split; [done|]. split; [by exists db|done].
  - exists false. simpl. split; [done|]. split; [discriminate|]. by intros [db ?].
Qed.

End DatabaseProofs.

Module DispatcherProofs.
Import Dispatcher.

Lemma map_TEvent_all_events (l : list StreamEvent) pre x post :
  map TEvent l = pre ++ x :: post -> Forall (fun t => is_event t = true) post.
Proof.
  intros Hl. apply Forall_forall. intros y Hy. apply list_elem_of_In in Hy.
  assert (Hin : In y (map TEvent l)).
  { rewrite Hl. apply in_or_app. right. by right. }
  apply in_map_iff in Hin as [ev [<- _]]. done.
Qed.

Lemma map_TEvent_no_call (l : list StreamEvent) pre e post :
  map TEvent l <> pre ++ TCall e :: post.
Proof.
  intros Hl. assert (Hin : In (TCall e) (map TEvent l)).
  { rewrite Hl. apply in_or_app. right. by left. }
  apply in_map_iff in Hin as [ev [? _]]. discriminate.
Qed.

Lemma translate_capacity_after (b1 b2 : list Chunk) :
  ~ In CCapacity b1 ->
  translate (b1 ++ CCapacity :: b2) = map EvText (data_texts b1) ++ [EvError CapacityExhausted].
Proof.
  induction b1 as [|[s| |] b1 IH]; simpl; intros Hn; [done| | |].
  - rewrite IH; [done|]. intros H. apply Hn. by right.
  - apply IH. intros H. apply Hn. by right.
  - exfalso. apply Hn. by left.
Qed.

Lemma singleton_app_inv {A} (x y : A) pre post :
  [x] = pre ++ y :: post -> pre = [] /\ x = y /\ post = [].
Proof.
  destruct pre as [|z pre]; simpl; intros H; injection H as H1 H2.
  - by subst.
  - destruct pre; discriminate.
Qed.

Section Loop.
Variables (fetch : string -> Response) (maxCapacityRetries : nat)
          (capacityBackoffTiersMs : list Z).

Abbreviation loop := (attempt_loop fetch maxCapacityRetries capacityBackoffTiersMs).

(** After a text event has been forwarded, the trace holds only events. *)
Lemma loop_events_after_text (eps : list string) (n : nat) pre s post :
  loop eps n = pre ++ TEvent (EvText s) :: post ->
  Forall (fun t => is_event t = true) post.
Proof.
  revert n pre. induction eps as [|e rest IH]; intros n pre Htr; simpl in Htr.
  - apply singleton_app_inv in Htr as (_ & ? & _). discriminate.
  - destruct pre as [|p pre]; simpl in Htr; injection Htr as Hp Htr; [discriminate|].
    destruct (fetch e) as [body|status reasons].
    + eapply map_TEvent_all_events. exact Htr.
    + destruct (is_capacity_exhausted status reasons).
      * destruct (n <? maxCapacityRetries)%nat.
        -- destruct pre as [|q pre]; simpl in Htr; injection Htr as Hq Htr; [discriminate|].
           eapply IH. exact Htr.
        -- apply singleton_app_inv in Htr as (_ & ? & _). discriminate.
      * apply singleton_app_inv in Htr as (_ & ? & _). discriminate.
Qed.

(** Once an endpoint answering 2xx is called, the rest of the trace is the
    translation of its body, and nothing else. *)
Lemma loop_after_success_call (eps : list string) (n : nat) pre e post body :
  loop eps n = pre ++ TCall e :: post -> fetch e = ROk body ->
  post = map TEvent (translate body).
Proof.
  revert n pre. induction eps as [|e' rest IH]; intros n pre Htr Hf; simpl in Htr.
  - apply singleton_app_inv in Htr as (_ & ? & _). discriminate.
  - destruct pre as [|p pre]; simpl in Htr; injection Htr as Hp Htr.
    + subst e'. rewrite Hf in Htr. by subst post.
    + destruct (fetch e') as [body'|status reasons].
      * exfalso. eapply map_TEvent_no_call. exact Htr.
      * destruct (is_capacity_exhausted status reasons).
        -- destruct (n <? maxCapacityRetries)%nat.
           ++ destruct pre as [|q pre]; simpl in Htr; injection Htr as Hq Htr; [discriminate|].
              eapply IH; [exact Htr | exact Hf].
           ++ apply singleton_app_inv in Htr as (_ & ? & _). discriminate.
        -- apply singleton_app_inv in Htr as (_ & ? & _). discriminate.
Qed.

End Loop.

Lemma calls_of_events (l : list StreamEvent) : calls_of (map TEvent l) = [].
Proof. induction l; simpl; done. Qed.

Lemma events_of_events (l : list StreamEvent) : events_of (map TEvent l) = l.
Proof. induction l as [|ev l IH]; simpl; [done|by rewrite IH]. Qed.

(** C1 (amended): with the fallback list [[E0; E1]], where the transport
    answers [E0] with a capacity-exhausted 503 and [E1] with a 2xx: with a
    retry budget [maxCapacityRetries >= 1] both entry points make exactly the
    calls [E0] then [E1], and the caller observes exactly the translation of
    [E1]'s body; with a budget of 0 they call only [E0] and surface a
    capacity-exhausted error. *)
Theorem failover_E0_capacity_E1_success
    (fetch : string -> Response) (maxCapacityRetries : nat) (tiers : list Z)
    (E0 E1 : string) (status : Z) (reasons : list string) (body : list Chunk) :
  is_capacity_exhausted status reasons = true ->
  fetch E0 = RError status reasons ->
  fetch E1 = ROk body ->
  ((1 <= maxCapacityRetries)%nat ->
   calls_of (sendMessageStream fetch maxCapacityRetries tiers [E0; E1]) = [E0; E1] /\
   events_of (sendMessageStream fetch maxCapacityRetries tiers [E0; E1]) = translate body /\
   sendMessage fetch maxCapacityRetries tiers [E0; E1] = ([E0; E1], aggregate (translate body))) /\
  (maxCapacityRetries = 0%nat ->
   calls_of (sendMessageStream fetch maxCapacityRetries tiers [E0; E1]) = [E0] /\
   events_of (sendMessageStream fetch maxCapacityRetries tiers [E0; E1])
     = [EvError CapacityExhausted] /\
   sendMessage fetch maxCapacityRetries tiers [E0; E1] = ([E0], inr CapacityExhausted)).
Proof.
  intros Hcap H0 H1. split.
  - intros Hmax.
    assert (Htr : sendMessageStream fetch maxCapacityRetries tiers [E0; E1] =
                  TCall E0 :: TWait (backoff_tier tiers 0) :: TCall E1 :: map TEvent (translate body)).
    { unfold sendMessageStream. simpl. rewrite H0, Hcap, H1.
      destruct maxCapacityRetries as [|m]; [lia|]. done. }
    unfold sendMessage. fold (sendMessageStream fetch maxCapacityRetries tiers [E0; E1]).
    rewrite Htr. simpl. rewrite calls_of_events, events_of_events. done.
  - intros ->.
    assert (Htr : sendMessageStream fetch 0 tiers [E0; E1] =
                  [TCall E0; TEvent (EvError CapacityExhausted)]).
    { unfold sendMessageStream. simpl. rewrite H0, Hcap. done. }
    unfold sendMessage. fold (sendMessageStream fetch 0 tiers [E0; E1]).
    rewrite Htr. done.
Qed.

(** C2: in every streaming dispatch, once a text event has been forwarded no
    upstream call and no backoff wait follows; and once an endpoint answering
    2xx has been called, a capacity signal in its body ends the stream with
    the events of the frames before it followed by a terminal error event,
    with no failover or retry. *)
Theorem stream_committed_after_first_byte
    (fetch : string -> Response) (maxCapacityRetries : nat) (tiers : list Z) :
  (forall endpoints pre s post,
     sendMessageStream fetch maxCapacityRetries tiers endpoints
       = pre ++ TEvent (EvText s) :: post ->
     Forall (fun t => is_event t = true) post) /\
  (forall endpoints pre e post b1 b2,
     sendMessageStream fetch maxCapacityRetries tiers endpoints = pre ++ TCall e :: post ->
     fetch e = ROk (b1 ++ CCapacity :: b2) ->
     ~ In CCapacity b1 ->
     post = map TEvent (map EvText (data_texts b1) ++ [EvError CapacityExhausted])).
Proof.
  split.
  - intros eps pre s post. apply loop_events_after_text.
  - intros eps pre e post b1 b2 Htr Hf Hn.
    rewrite (loop_after_success_call _ _ _ _ _ _ _ _ _ Htr Hf).
    by rewrite translate_capacity_after.
Qed.

End DispatcherProofs.

Module AccountPoolProofs.
Import AccountPool.

Section FoldMin.
Variable f : Account -> Z.

Lemma fold_min_lower (r : list Account) (m0 : Z) :
  fold_left (fun m b => Z.min m (f b)) r m0 <= m0 /\
  (forall b, In b r -> fold_left (fun m b => Z.min m (f b)) r m0 <= f b).
Proof.
  revert m0. induction r as [|b r IH]; intros m0; simpl; [split; [lia|done]|].
  destruct (IH (Z.min m0 (f b))) as [H1 H2]. split; [lia|].
  intros b' [<-|Hb']; [lia|]. by apply H2.
Qed.

Lemma fold_min_attained (r : list Account) (m0 : Z) :
  fold_left (fun m b => Z.min m (f b)) r m0 = m0 \/
  exists b, In b r /\ fold_left (fun m b => Z.min m (f b)) r m0 = f b.
Proof.
  revert m0. induction r as [|b r IH]; intros m0; simpl; [by left|].
  destruct (IH (Z.min m0 (f b))) as [H|[b' [Hb' H]]].
  - rewrite H. destruct (Z.min_spec m0 (f b)) as [[_ ->]|[_ ->]]; [by left|].
    right. exists b. split; [by left|done].
  - right. exists b'. split; [by right|done].
Qed.

End FoldMin.

Lemma pick_best_in (best : Account) (rest : list Account) :
  In (pick_best best rest) (best :: rest).
Proof.
  revert best. induction rest as [|a rest IH]; intros best; simpl; [by left|].
  destruct (better a best).
  - right. apply IH.
  - destruct (IH best) as [H|H]; [by left|by right; right].
Qed.

Lemma pick_in (l : list Account) (a : Account) : pick l = Some a -> In a l.
Proof. destruct l as [|x r]; simpl; [done|]. intros [= <-]. apply pick_best_in. Qed.

Lemma filter_none_selectable (now : Z) (l : list Account) :
  (forall a, In a l -> selectable now a = false) ->
  filter (fun a => selectable now a = true) l = [].
Proof.
  induction l as [|a l IH]; intros Hn; [done|].
  rewrite filter_cons_False.
  - apply IH. intros b Hb. apply Hn. by right.
  - rewrite (Hn a (or_introl eq_refl)). done.
Qed.

Lemma in_filter_selectable (now : Z) (l : list Account) (a : Account) :
  In a (filter (fun a => selectable now a = true) l) ->
  In a l /\ isAvailable now a = true /\ isInvalid a = false.
Proof.
  intros H. apply list_elem_of_In, list_elem_of_filter in H as [Hs Hin].
  apply list_elem_of_In in Hin. unfold selectable in Hs.
  apply andb_true_iff in Hs as [Ha Hi]. apply negb_true_iff in Hi. done.
Qed.

Lemma remaining_nonneg (now : Z) (a : Account) : 0 <= remaining now a.
Proof. unfold remaining. destruct (rateLimitedUntil a); lia. Qed.

Lemma remaining_available (now : Z) (a : Account) :
  isAvailable now a = true -> remaining now a = 0.
Proof.
  unfold isAvailable, remaining. destruct (rateLimitedUntil a) as [t|]; [|done].
  intros Ht. apply Z.leb_le in Ht. lia.
Qed.

Lemma minWait_bounds (now : Z) (pool : list Account) :
  0 <= minWait now pool /\ (forall a, In a pool -> minWait now pool <= remaining now a).
Proof.
  destruct pool as [|a0 rest]; simpl; [split; [lia|done]|].
  destruct (fold_min_lower (remaining now) rest (remaining now a0)) as [Hle0 Hle].
  split.
  - destruct (fold_min_attained (remaining now) rest (remaining now a0)) as [->|[b [_ ->]]];
      apply remaining_nonneg.
  - intros a [<-|Ha]; [done|by apply Hle].
Qed.

Lemma selectAccount_none (now : Z) (pool : list Account) :
  (forall a, In a pool -> selectable now a = false) ->
  fst (selectAccount now pool) = {| account := None; waitMs := minWait now pool |}.
Proof. intros Hn. unfold selectAccount. by rewrite filter_none_selectable. Qed.

(** C3 (amended): for every pool where every account is rate-limited into the
    future, [selectAccount] returns [{account: null, waitMs: m}] with [m]
    never negative, [m] at most each account's [rateLimitedUntil - now], [m]
    equal to one of them when the pool is non-empty (so [m > 0]) and [m = 0]
    for the empty pool; when some account is available and not marked
    invalid it returns such an account of the pool with [waitMs = 0]; when no
    account is both available and valid it returns [account: null], with
    [waitMs = 0] if some account is available; and any account it returns is
    an available, valid account of the pool, with [waitMs = 0]. *)
Theorem selectAccount_wait_and_selection (now : Z) (pool : list Account) :
  ((forall a, In a pool -> exists t, rateLimitedUntil a = Some t /\ now < t) ->
   exists m, fst (selectAccount now pool) = {| account := None; waitMs := m |} /\
     0 <= m /\
     (forall a t, In a pool -> rateLimitedUntil a = Some t -> m <= t - now) /\
     (pool = [] -> m = 0) /\
     (pool <> [] -> 0 < m /\
        exists a t, In a pool /\ rateLimitedUntil a = Some t /\ m = t - now)) /\
  ((exists a, In a pool /\ isAvailable now a = true /\ isInvalid a = false) ->
   exists a, fst (selectAccount now pool) = {| account := Some a; waitMs := 0 |} /\
     In a pool /\ isAvailable now a = true /\ isInvalid a = false) /\
  ((forall a, In a pool -> isAvailable now a = false \/ isInvalid a = true) ->
   exists m, fst (selectAccount now pool) = {| account := None; waitMs := m |} /\
     0 <= m /\
     ((exists a, In a pool /\ isAvailable now a = true) -> m = 0)) /\
  (forall a w, fst (selectAccount now pool) = {| account := Some a; waitMs := w |} ->
     In a pool /\ isAvailable now a = true /\ isInvalid a = false /\ w = 0).
Proof.
  split; [|split; [|split]].
  - intros Hall.
    assert (Hrem : forall a, In a pool -> exists t, rateLimitedUntil a = Some t /\
                     now < t /\ remaining now a = t - now).
    { intros a Ha. destruct (Hall a Ha) as [t [Ht Hlt]]. exists t.
      unfold remaining. rewrite Ht. split; [done|split; [done|lia]]. }
    rewrite selectAccount_none.
    2: { intros a Ha. destruct (Hall a Ha) as [t [Ht Hlt]].
         unfold selectable, isAvailable. rewrite Ht.
         replace (t <=? now) with false by (symmetry; apply Z.leb_gt; lia). done. }
    exists (minWait now pool). split; [done|].
    destruct (minWait_bounds now pool) as [H0 Hle].
    assert (Hlow : forall a t, In a pool -> rateLimitedUntil a = Some t ->
              minWait now pool <= t - now).
    { intros a t Ha Ht. destruct (Hrem a Ha) as [t' [Ht' [_ Hr]]].
      rewrite Ht in Ht'. injection Ht' as <-. rewrite <- Hr. by apply Hle. }
    split; [done|split; [exact Hlow|split]].
    + by intros ->.
    + intros Hne. destruct pool as [|a0 rest]; [done|]. clear Hne.
      assert (Hatt : exists a t, In a (a0 :: rest) /\ rateLimitedUntil a = Some t /\
                minWait now (a0 :: rest) = t - now).
      { unfold minWait.
        destruct (fold_min_attained (remaining now) rest (remaining now a0)) as [H|[b [Hb H]]].
        - destruct (Hrem a0 (or_introl eq_refl)) as [t [Ht [_ Hr]]].
          exists a0, t. split; [by left|split; [done|lia]].
        - destruct (Hrem b (or_intror Hb)) as [t [Ht [_ Hr]]].
          exists b, t. split; [by right|split; [done|lia]]. }
      split; [|exact Hatt].
      destruct Hatt as [a [t [Ha [Ht ->]]]].
      destruct (Hrem a Ha) as [t' [Ht' [Hlt _]]]. rewrite Ht in Ht'. injection Ht' as <-. lia.
  - intros [a [Ha [Hav Hinv]]]. unfold selectAccount.
    destruct (filter (fun a => selectable now a = true) pool) as [|x r] eqn:Hf.
    + exfalso. assert (Hin : a ∈ filter (fun a => selectable now a = true) pool).
      { apply list_elem_of_filter. split.
        - unfold selectable. rewrite Hav, Hinv. done.
        - by apply list_elem_of_In. }
      rewrite Hf in Hin. by apply elem_of_nil in Hin.
    + simpl. exists (pick_best x r). split; [done|].
      apply (in_filter_selectable now pool). rewrite Hf. apply pick_best_in.
  - intros Hn. rewrite selectAccount_none.
    2: { intros a Ha. unfold selectable.
         destruct (Hn a Ha) as [-> | ->]; [done|by rewrite andb_false_r]. }
    exists (minWait now pool). split; [done|].
    destruct (minWait_bounds now pool) as [H0 Hle]. split; [done|].
    intros [a [Ha Hav]]. specialize (Hle a Ha). rewrite remaining_available in Hle by done. lia.
  - intros a w. unfold selectAccount.
    destruct (pick (filter (fun a => selectable now a = true) pool)) as [b|] eqn:Hp;
      simpl; [|discriminate].
    intros [= <- <-]. apply pick_in, in_filter_selectable in Hp as (? & ? & ?). done.
Qed.

End AccountPoolProofs.

Module SignatureCacheProofs.
Import SignatureCache.

Section Sweep.
Context {E : Type} (TTL : Z) (ts : E -> Z) (now : Z).

Lemma sweep_foldr_lookup (m : gmap string E) (l : list (string * E)) (k : string) :
  foldr (fun '(k', e) acc => if expired TTL now (ts e) then delete k' acc else acc) m l !! k
  = if existsb (fun '(k', e) => bool_decide (k' = k) && expired TTL now (ts e)) l
    then None else m !! k.
Proof.
  induction l as [|[k' e] l IH]; simpl; [done|].
  destruct (expired TTL now (ts e)) eqn:Hexp.
  - rewrite lookup_delete. case_decide as Hk.
    + subst. rewrite bool_decide_eq_true_2 by done. done.
    + rewrite bool_decide_eq_false_2 by done. simpl. exact IH.
  - rewrite andb_false_r. simpl. exact IH.
Qed.

Lemma sweep_lookup (m : gmap string E) (k : string) :
  sweep TTL ts now m !! k =
  match m !! k with
  | Some e => if expired TTL now (ts e) then None else Some e
  | None => None
  end.
Proof.
  unfold sweep. rewrite sweep_foldr_lookup.
  destruct (existsb _ _) eqn:Hex.
  - apply existsb_exists in Hex as [[k' e] [Hin Hf]].
    apply andb_true_iff in Hf as [Hk He]. apply bool_decide_eq_true_1 in Hk. subst k'.
    apply list_elem_of_In, elem_of_map_to_list in Hin. rewrite Hin, He. done.
  - destruct (m !! k) as [e|] eqn:Hm; [|done].
    destruct (expired TTL now (ts e)) eqn:He; [|done].
    assert (Hin : In (k, e) (map_to_list m)).
    { apply list_elem_of_In, elem_of_map_to_list. done. }
    exfalso. assert (existsb (fun '(k', e) => bool_decide (k' = k) && expired TTL now (ts e))
                        (map_to_list m) = true) as Ht.
    { apply existsb_exists. exists (k, e). split; [done|].
      rewrite bool_decide_eq_true_2 by done. done. }
    congruence.
Qed.

End Sweep.

Lemma expired_iff TTL now ts : expired TTL now ts = true <-> now - ts > TTL.
Proof. unfold expired. apply bool_decide_eq_true. Qed.

Lemma not_expired_iff TTL now ts : expired TTL now ts = false <-> now - ts <= TTL.
Proof. unfold expired. rewrite bool_decide_eq_false. lia. Qed.

(** Every key of the thinking-signature map of a reachable state is at least
    [MIN_SIGNATURE_LENGTH] long. *)
Lemma reachable_thinking_keys_long TTL MIN st :
  reachable TTL MIN st ->
  forall k e, thinkingSignatureCache st !! k = Some e -> (MIN <= String.length k)%nat.
Proof.
  induction 1 as [| now id sig st _ IH | now id st _ IH | now sig fam st _ IH
                  | now sig st _ IH | st _ IH | now st _ IH]; intros k e Hk.
  - done.
  - unfold cacheSignature in Hk. destruct (_ || _); simpl in Hk; eauto.
  - unfold getCachedSignature in Hk.
    destruct (is_empty_string id); [simpl in Hk; eauto|].
    destruct (signatureCache st !! id); [|simpl in Hk; eauto].
    destruct (expired _ _ _); simpl in Hk; eauto.
  - unfold cacheThinkingSignature in Hk.
    destruct (is_empty_string sig || _) eqn:Hs; [eauto|].
    simpl in Hk. rewrite lookup_insert in Hk. case_decide as Heq; [|eauto].
    subst k. apply orb_false_iff in Hs as [_ Hs].
    apply bool_decide_eq_false_1 in Hs. lia.
  - unfold getCachedSignatureFamily in Hk.
    destruct (is_empty_string sig); [simpl in Hk; eauto|].
    destruct (thinkingSignatureCache st !! sig); [|simpl in Hk; eauto].
    destruct (expired _ _ _); simpl in Hk; [|eauto].
    rewrite lookup_delete in Hk. case_decide; [done|eauto].
  - done.
  - simpl in Hk. rewrite sweep_lookup in Hk.
    destruct (thinkingSignatureCache st !! k) as [e'|] eqn:He; [|done]. eauto.
Qed.


(** C4: for a non-empty tool-use id and a non-empty signature,
    [cacheSignature] followed by [getCachedSignature] returns the stored
    signature while the TTL has not elapsed ([now1 - now0 <= TTL]) and returns
    [null] once it has strictly elapsed ([now1 - now0 > TTL]). *)
Theorem cacheSignature_getCachedSignature_roundtrip
    (TTL now0 now1 : Z) (id sig : string) (st : CacheState) :
  id <> "" -> sig <> "" ->
  (now1 - now0 <= TTL ->
     fst (getCachedSignature TTL now1 id (cacheSignature now0 id sig st)) = Some sig) /\
  (now1 - now0 > TTL ->
     fst (getCachedSignature TTL now1 id (cacheSignature now0 id sig st)) = None).
Proof.
  intros Hid Hsig.
  assert (Hc : cacheSignature now0 id sig st =
               set_sig (<[id := {| signature := sig; sig_timestamp := now0 |}]> (signatureCache st)) st).
  { unfold cacheSignature. destruct id, sig; done. }
  assert (He : is_empty_string id = false) by (destruct id; done).
  rewrite Hc. unfold getCachedSignature. rewrite He. simpl. rewrite lookup_insert_eq.
  split; intros Ht.
  - apply not_expired_iff in Ht. simpl. rewrite Ht. done.
  - apply expired_iff in Ht. simpl. rewrite Ht. done.
Qed.

(** C5: after one sweep, each of the two maps holds exactly the entries of
    the map before the sweep that had not expired at sweep time, with their
    values unchanged; in particular no entry older than the TTL remains. *)
Theorem cleanupExpiredEntries_removes_exactly_expired (TTL now : Z) (st : CacheState) :
  (forall k, signatureCache (cleanupCache TTL now st) !! k =
     match signatureCache st !! k with
     | Some e => if bool_decide (now - sig_timestamp e > TTL) then None else Some e
     | None => None
     end) /\
  (forall k, thinkingSignatureCache (cleanupCache TTL now st) !! k =
     match thinkingSignatureCache st !! k with
     | Some e => if bool_decide (now - fam_timestamp e > TTL) then None else Some e
     | None => None
     end) /\
  (forall k e, signatureCache (cleanupCache TTL now st) !! k = Some e ->
     now - sig_timestamp e <= TTL) /\
  (forall k e, thinkingSignatureCache (cleanupCache TTL now st) !! k = Some e ->
     now - fam_timestamp e <= TTL).
Proof.
  unfold cleanupCache, cleanupExpiredEntries; simpl.
  split; [|split; [|split]]; intros k.
  - apply sweep_lookup.
  - apply sweep_lookup.
  - intros e. rewrite sweep_lookup.
    destruct (signatureCache st !! k) as [e'|]; [|done].
    destruct (expired TTL now (sig_timestamp e')) eqn:Hx; [done|].
    intros [= <-]. by apply not_expired_iff.
  - intros e. rewrite sweep_lookup.
    destruct (thinkingSignatureCache st !! k) as [e'|]; [|done].
    destruct (expired TTL now (fam_timestamp e')) eqn:Hx; [done|].
    intros [= <-]. by apply not_expired_iff.
Qed.

(** C7: in every reachable state, [cacheThinkingSignature] with a signature
    shorter than [MIN_SIGNATURE_LENGTH] leaves the state unchanged, and a
    following [getCachedSignatureFamily] of that signature returns [null]. *)
Theorem cacheThinkingSignature_short_noop
    (TTL : Z) (MIN : nat) (now now' : Z) (sig fam : string) (st : CacheState) :
  reachable TTL MIN st ->
  (String.length sig < MIN)%nat ->
  cacheThinkingSignature MIN now sig fam st = st /\
  fst (getCachedSignatureFamily TTL now' sig (cacheThinkingSignature MIN now sig fam st)) = None.
Proof.
  intros Hr Hlen.
  assert (Hnoop : cacheThinkingSignature MIN now sig fam st = st).
  { unfold cacheThinkingSignature. rewrite (bool_decide_eq_true_2 _ Hlen), orb_true_r. done. }
  split; [done|]. rewrite Hnoop.
  unfold getCachedSignatureFamily. destruct (is_empty_string sig); [done|].
  destruct (thinkingSignatureCache st !! sig) as [e|] eqn:He; [|done].
  exfalso. pose proof (reachable_thinking_keys_long _ _ _ Hr _ _ He). lia.
Qed.

End SignatureCacheProofs.

(* ===================================================================== *)
(** * Further properties of the code *)
(* ===================================================================== *)

Module MappersExtra.
Import Mappers MappersProofs.

Lemma remap_grep_eq (t : string) (a : gmap string jsval) :
  toLowerCase t = "grep" -> remapFunctionCallArgs t a = remap_grep a.
Proof.
  intros Ht. unfold remapFunctionCallArgs.
  replace (String.eqb (toLowerCase t) "grep") with true by (rewrite Ht; reflexivity).
  reflexivity.
Qed.

Lemma remap_glob_eq (t : string) (a : gmap string jsval) :
  toLowerCase t = "glob" -> remapFunctionCallArgs t a = remap_glob a.
Proof.
  intros Ht. unfold remapFunctionCallArgs.
  replace (String.eqb (toLowerCase t) "grep") with false by (rewrite Ht; reflexivity).
  replace (String.eqb (toLowerCase t) "glob") with true by (rewrite Ht; reflexivity).
  reflexivity.
Qed.

Lemma is_undefined_eq (v : jsval) : is_undefined v = true -> v = JUndefined.
Proof. by destruct v. Qed.

Lemma get_delete_ne (a : gmap string jsval) k k' : k <> k' -> get (delete k a) k' = get a k'.
Proof. intros H. unfold get. by rewrite lookup_delete_ne. Qed.

Lemma get_insert_eq (a : gmap string jsval) k v : get (<[k := v]> a) k = v.
Proof. unfold get. by rewrite lookup_insert_eq. Qed.

(** [remap_key] read at its destination. *)
Lemma remap_key_dst_get src dst (a : gmap string jsval) :
  src <> dst ->
  get (remap_key src dst a) dst =
  if is_undefined (get a dst) then get a src else get a dst.
Proof.
  intros Hne. unfold remap_key.
  rewrite (get_delete_ne a src dst Hne).
  destruct (is_undefined (get a src)) eqn:Hs; simpl.
  - apply is_undefined_eq in Hs. rewrite Hs.
    destruct (is_undefined (get a dst)) eqn:Hd; [|done]. by apply is_undefined_eq.
  - destruct (is_undefined (get a dst)); [apply get_insert_eq|by apply get_delete_ne].
Qed.

Lemma remap_includes_get (a : gmap string jsval) :
  get (remap_includes a) "include" =
  if is_undefined (get a "include") then
    let s := match get a "includes" with
             | JArray l => join "," (string_elems l)
             | JString s => s
             | _ => ""
             end in
    if SignatureCache.is_empty_string s then JUndefined else JString s
  else get a "include".
Proof.
  unfold remap_includes. rewrite (get_delete_ne a "includes" "include") by discriminate.
  destruct (is_undefined (get a "includes")) eqn:Hs; simpl.
  - apply is_undefined_eq in Hs. rewrite Hs.
    destruct (is_undefined (get a "include")) eqn:Hd; [|done]. by apply is_undefined_eq.
  - destruct (is_undefined (get a "include")) eqn:Hd; [|by apply get_delete_ne].
    destruct (SignatureCache.is_empty_string _).
    + rewrite get_delete_ne by discriminate. by apply is_undefined_eq.
    + apply get_insert_eq.
Qed.

Lemma remap_dash_n_get (a : gmap string jsval) :
  get (remap_dash_n a) "lineNumbers" =
  if is_undefined (get a "lineNumbers") then
    match coerceToBool (get a "-n") with Some b => JBool b | None => JUndefined end
  else get a "lineNumbers".
Proof.
  unfold remap_dash_n. rewrite (get_delete_ne a "-n" "lineNumbers") by discriminate.
  destruct (is_undefined (get a "-n")) eqn:Hs; simpl.
  - apply is_undefined_eq in Hs. rewrite Hs. simpl.
    destruct (is_undefined (get a "lineNumbers")) eqn:Hd; [|done]. by apply is_undefined_eq.
  - destruct (coerceToBool (get a "-n")).
    + destruct (is_undefined (get a "lineNumbers")) eqn:Hd; [apply get_insert_eq|].
      by apply get_delete_ne.
    + rewrite get_delete_ne by discriminate.
      destruct (is_undefined (get a "lineNumbers")) eqn:Hd; [|done]. by apply is_undefined_eq.
Qed.

Lemma coerce_param_get (a : gmap string jsval) p :
  get (coerce_param a p) p = coerced (get a p).
Proof.
  unfold coerce_param, coerced.
  destruct (get a p) as [| | | |s| |] eqn:Hp; try done.
  destruct (coerceToBool (JString s)); [apply get_insert_eq|done].
Qed.

Lemma coerced_idem (v : jsval) : coerced (coerced v) = coerced v.
Proof.
  unfold coerced. destruct v as [| | | |s| |]; try done.
  destruct (coerceToBool (JString s)) eqn:Hc; [done|]. by rewrite Hc.
Qed.

Lemma coerce_params_get (ps : list string) (a : gmap string jsval) p :
  NoDup ps -> p ∈ ps -> get (fold_left coerce_param ps a) p = coerced (get a p).
Proof.
  revert a. induction ps as [|q ps IH]; intros a Hnd Hp; simpl.
  - by apply elem_of_nil in Hp.
  - apply NoDup_cons in Hnd as [Hq Hnd].
    destruct (decide (p = q)) as [->|Hne].
    + rewrite coerce_params_get_frame by done. apply coerce_param_get.
    + apply elem_of_cons in Hp as [|Hp]; [done|].
      rewrite IH by done. f_equal. apply get_lookup_eq. by apply coerce_param_frame.
Qed.

Lemma boolParams_NoDup : NoDup boolParams.
Proof. unfold boolParams. repeat constructor; set_solver. Qed.

(** Reading a key through the four steps of [remap_grep] that precede the
    coercion loop, when the key is not one they write. *)
Lemma grep_head_get_frame (a : gmap string jsval) k :
  k ∉ ["description"; "query"; "pattern"; "includes"; "include";
       "ignore_case"; "ignoreCase"; "-n"; "lineNumbers"] ->
  get (remap_dash_n (remap_key "ignore_case" "ignoreCase"
         (remap_includes (remap_key "query" "pattern"
            (remap_key "description" "pattern" a))))) k = get a k.
Proof.
  intros Hk. rewrite !not_elem_of_cons in Hk.
  destruct Hk as (H1 & H2 & H3 & H4 & H5 & H6 & H7 & H8 & H9 & _).
  rewrite remap_dash_n_get_frame, remap_key_get_frame, remap_includes_get_frame,
    !remap_key_get_frame by done.
  done.
Qed.

(** X2: [remapFunctionCallArgs] touches only the keys it names: for grep a key
    outside description, query, pattern, includes, include, ignore_case,
    ignoreCase, -n and the five boolean parameters keeps its value (or stays
    absent); for any other tool name, glob included, every key other than
    description, query and pattern is left as it was. *)
Theorem remapFunctionCallArgs_frame (toolName : string) (args : gmap string jsval) (k : string) :
  (k ∉ ["description"; "query"; "pattern"; "includes"; "include"; "ignore_case";
        "ignoreCase"; "-n"; "lineNumbers"; "caseSensitive"; "regex"; "wholeWord"] ->
   remapFunctionCallArgs toolName args !! k = args !! k) /\
  (toLowerCase toolName <> "grep" -> k ∉ ["description"; "query"; "pattern"] ->
   remapFunctionCallArgs toolName args !! k = args !! k).
Proof.
  split.
  - intros Hk. rewrite !not_elem_of_cons in Hk.
    destruct Hk as (H1 & H2 & H3 & H4 & H5 & H6 & H7 & H8 & H9 & H10 & H11 & H12 & _).
    unfold remapFunctionCallArgs.
    destruct (String.eqb (toLowerCase toolName) "grep").
    + unfold remap_grep.
      rewrite coerce_params_frame
        by (unfold boolParams; rewrite !not_elem_of_cons; repeat split; done || apply not_elem_of_nil).
      rewrite remap_dash_n_frame, remap_key_frame, remap_includes_frame, !remap_key_frame by done.
      done.
    + destruct (String.eqb (toLowerCase toolName) "glob"); [|done].
      unfold remap_glob. by rewrite !remap_key_frame.
  - intros Hg Hk. rewrite !not_elem_of_cons in Hk. destruct Hk as (H1 & H2 & H3 & _).
    unfold remapFunctionCallArgs.
    destruct (String.eqb (toLowerCase toolName) "grep") eqn:Heq;
      [apply String.eqb_eq in Heq; contradiction|].
    destruct (String.eqb (toLowerCase toolName) "glob"); [|done].
    unfold remap_glob. by rewrite !remap_key_frame.
Qed.

(** X3: after remapping for grep, none of the malformed keys description,
    query, includes, ignore_case and -n reads as defined; after remapping for
    glob, neither description nor query does. *)
Theorem remapFunctionCallArgs_drops_malformed_keys (toolName : string) (args : gmap string jsval) :
  (toLowerCase toolName = "grep" ->
   forall k, k ∈ ["description"; "query"; "includes"; "ignore_case"; "-n"] ->
   get (remapFunctionCallArgs toolName args) k = JUndefined) /\
  (toLowerCase toolName = "glob" ->
   get (remapFunctionCallArgs toolName args) "description" = JUndefined /\
   get (remapFunctionCallArgs toolName args) "query" = JUndefined).
Proof.
  split.
  - intros Ht k Hk. rewrite remap_grep_eq by done.
    destruct (remap_grep_clean args) as (Hd & Hq & Hi & Hc & Hn & _).
    repeat (apply elem_of_cons in Hk as [->|Hk]; [done|]). by apply elem_of_nil in Hk.
  - intros Ht. rewrite remap_glob_eq by done. apply remap_glob_clean.
Qed.

(** X4: for grep and glob, when [pattern] is undefined the remapped
    [pattern] is [description] if that is defined and [query] otherwise (so
    [description] wins over [query]). *)
Theorem remapFunctionCallArgs_pattern_source (toolName : string) (args : gmap string jsval) :
  toLowerCase toolName = "grep" \/ toLowerCase toolName = "glob" ->
  get args "pattern" = JUndefined ->
  get (remapFunctionCallArgs toolName args) "pattern" =
  if is_undefined (get args "description") then get args "query"
  else get args "description".
Proof.
  intros Ht Hp.
  assert (H2 : get (remap_key "query" "pattern" (remap_key "description" "pattern" args)) "pattern"
               = if is_undefined (get args "description") then get args "query"
                 else get args "description").
  { rewrite remap_key_dst_get by discriminate.
    rewrite (remap_key_dst_get "description") by discriminate.
    rewrite remap_key_get_frame by discriminate.
    rewrite Hp. cbn [is_undefined]. reflexivity. }
  destruct Ht as [Ht|Ht].
  - rewrite remap_grep_eq by done. unfold remap_grep.
    rewrite <- H2. apply get_lookup_eq. apply grep_tail_frame. by left.
  - rewrite remap_glob_eq by done. exact H2.
Qed.

(** X5: for grep, an [include] that is already defined is kept; otherwise the
    remapped [include] is the comma-joined string elements of an array
    [includes], or a string [includes] itself, and stays undefined when that
    string is empty. *)
Theorem remapFunctionCallArgs_include (toolName : string) (args : gmap string jsval) :
  toLowerCase toolName = "grep" ->
  get (remapFunctionCallArgs toolName args) "include" =
  if is_undefined (get args "include") then
    let s := match get args "includes" with
             | JArray l => join "," (string_elems l)
             | JString s => s
             | _ => ""
             end in
    if SignatureCache.is_empty_string s then JUndefined else JString s
  else get args "include".
Proof.
  intros Ht. rewrite remap_grep_eq by done. unfold remap_grep.
  rewrite coerce_params_get_frame
    by (unfold boolParams; rewrite !not_elem_of_cons; repeat split; done || apply not_elem_of_nil).
  rewrite remap_dash_n_get_frame, remap_key_get_frame by done.
  rewrite remap_includes_get.
  rewrite !(remap_key_get_frame _ _ _ "include"), !(remap_key_get_frame _ _ _ "includes") by done.
  done.
Qed.

(** X6: for grep, an undefined [lineNumbers] takes the boolean that
    [coerceToBool] reads from [-n] (and stays undefined when it reads none);
    a defined [lineNumbers] is kept, a string one coerced to a boolean when
    [coerceToBool] can read it. *)
Theorem remapFunctionCallArgs_lineNumbers (toolName : string) (args : gmap string jsval) :
  toLowerCase toolName = "grep" ->
  get (remapFunctionCallArgs toolName args) "lineNumbers" =
  coerced (if is_undefined (get args "lineNumbers") then
             match coerceToBool (get args "-n") with Some b => JBool b | None => JUndefined end
           else get args "lineNumbers").
Proof.
  intros Ht. rewrite remap_grep_eq by done. unfold remap_grep.
  rewrite coerce_params_get by (apply boolParams_NoDup || (unfold boolParams; set_solver)).
  rewrite remap_dash_n_get.
  rewrite !(remap_key_get_frame _ _ _ "lineNumbers"), !(remap_key_get_frame _ _ _ "-n"),
    !remap_includes_get_frame, !(remap_key_get_frame _ _ _ "lineNumbers"),
    !(remap_key_get_frame _ _ _ "-n") by done.
  done.
Qed.

(** X7: for grep, [ignoreCase] ends as the value of [ignoreCase], or of
    [ignore_case] when [ignoreCase] is undefined, and caseSensitive, regex
    and wholeWord keep their values; in each case a string that
    [coerceToBool] can read is turned into that boolean. *)
Theorem remapFunctionCallArgs_boolean_params (toolName : string) (args : gmap string jsval) :
  toLowerCase toolName = "grep" ->
  get (remapFunctionCallArgs toolName args) "ignoreCase" =
    coerced (if is_undefined (get args "ignoreCase") then get args "ignore_case"
             else get args "ignoreCase") /\
  (forall p, p ∈ ["caseSensitive"; "regex"; "wholeWord"] ->
   get (remapFunctionCallArgs toolName args) p = coerced (get args p)).
Proof.
  intros Ht. rewrite remap_grep_eq by done. unfold remap_grep. split.
  - rewrite coerce_params_get by (apply boolParams_NoDup || (unfold boolParams; set_solver)).
    rewrite remap_dash_n_get_frame by done.
    rewrite remap_key_dst_get by done.
    rewrite !remap_includes_get_frame, !remap_key_get_frame by done.
    done.
  - intros p Hp.
    rewrite coerce_params_get by (apply boolParams_NoDup || (unfold boolParams; set_solver)).
    rewrite grep_head_get_frame; [done|].
    repeat (apply elem_of_cons in Hp as [->|Hp]; [set_solver|]). by apply elem_of_nil in Hp.
Qed.

End MappersExtra.

Module SignatureCacheExtra.
Import SignatureCache SignatureCacheProofs.

Lemma getCachedSignature_fst TTL now k st :
  fst (getCachedSignature TTL now k st) =
  if is_empty_string k then None else
  match signatureCache st !! k with
  | Some e => if expired TTL now (sig_timestamp e) then None else Some (signature e)
  | None => None
  end.
Proof.
  unfold getCachedSignature. destruct (is_empty_string k); [done|].
  destruct (signatureCache st !! k); [|done]. by destruct (expired _ _ _).
Qed.

Lemma getCachedSignatureFamily_fst TTL now k st :
  fst (getCachedSignatureFamily TTL now k st) =
  if is_empty_string k then None else
  match thinkingSignatureCache st !! k with
  | Some e => if expired TTL now (fam_timestamp e) then None else Some (modelFamily e)
  | None => None
  end.
Proof.
  unfold getCachedSignatureFamily. destruct (is_empty_string k); [done|].
  destruct (thinkingSignatureCache st !! k); [|done]. by destruct (expired _ _ _).
Qed.

Lemma expired_mono TTL now' now ts :
  now' <= now -> expired TTL now' ts = true -> expired TTL now ts = true.
Proof. intros Hle He. apply expired_iff in He. apply expired_iff. lia. Qed.

Section Agree.
Context {E R : Type} (TTL : Z) (ts : E -> Z) (val : E -> R).

(** A map [m'] that differs from [m] only by dropping entries already
    expired at [now'] answers every read at [now >= now'] as [m] does. *)
Lemma read_agree (now' now : Z) (m m' : gmap string E) (k : string) :
  now' <= now ->
  (m' !! k = m !! k \/
   (m' !! k = None /\ forall e, m !! k = Some e -> expired TTL now' (ts e) = true)) ->
  read TTL ts val now m' k = read TTL ts val now m k.
Proof.
  intros Hle [Heq|[Hn Hx]]; unfold read; [by rewrite Heq|].
  rewrite Hn. destruct (m !! k) as [e|] eqn:He; [|done].
  by rewrite (expired_mono TTL now' now _ Hle (Hx e eq_refl)).
Qed.

Lemma sweep_agree (now' : Z) (m : gmap string E) (k : string) :
  sweep TTL ts now' m !! k = m !! k \/
  (sweep TTL ts now' m !! k = None /\ forall e, m !! k = Some e -> expired TTL now' (ts e) = true).
Proof.
  rewrite sweep_lookup. destruct (m !! k) as [e|]; [|by left].
  destruct (expired TTL now' (ts e)) eqn:Hx; [|by left].
  right. split; [done|]. by intros ? [= <-].
Qed.

Lemma delete_agree (now' : Z) (m : gmap string E) (k' k : string) (e' : E) :
  m !! k' = Some e' -> expired TTL now' (ts e') = true ->
  delete k' m !! k = m !! k \/
  (delete k' m !! k = None /\ forall e, m !! k = Some e -> expired TTL now' (ts e) = true).
Proof.
  intros Hk' Hx. destruct (decide (k' = k)) as [<-|Hne].
  - right. rewrite lookup_delete_eq. split; [done|]. rewrite Hk'. by intros ? [= <-].
  - left. by rewrite lookup_delete_ne.
Qed.

End Agree.

Lemma getCachedSignature_read TTL now k st :
  fst (getCachedSignature TTL now k st) =
  if is_empty_string k then None else read TTL sig_timestamp signature now (signatureCache st) k.
Proof. apply getCachedSignature_fst. Qed.

Lemma getCachedSignatureFamily_read TTL now k st :
  fst (getCachedSignatureFamily TTL now k st) =
  if is_empty_string k then None else read TTL fam_timestamp modelFamily now (thinkingSignatureCache st) k.
Proof. apply getCachedSignatureFamily_fst. Qed.

Lemma reachable_thinking_keys_nonempty TTL MIN st :
  reachable TTL MIN st ->
  forall k e, thinkingSignatureCache st !! k = Some e -> k <> "".
Proof.
  induction 1 as [| now id sig st _ IH | now id st _ IH | now sig fam st _ IH
                  | now sig st _ IH | st _ IH | now st _ IH]; intros k e Hk.
  - done.
  - unfold cacheSignature in Hk. destruct (_ || _); simpl in Hk; eauto.
  - unfold getCachedSignature in Hk.
    destruct (is_empty_string id); [simpl in Hk; eauto|].
    destruct (signatureCache st !! id); [|simpl in Hk; eauto].
    destruct (expired _ _ _); simpl in Hk; eauto.
  - unfold cacheThinkingSignature in Hk.
    destruct (is_empty_string sig || _) eqn:Hs; [eauto|].
    simpl in Hk. rewrite lookup_insert in Hk. case_decide as Heq; [|eauto].
    subst k. apply orb_false_iff in Hs as [Hs _]. by destruct sig.
  - unfold getCachedSignatureFamily in Hk.
    destruct (is_empty_string sig); [simpl in Hk; eauto|].
    destruct (thinkingSignatureCache st !! sig); [|simpl in Hk; eauto].
    destruct (expired _ _ _); simpl in Hk; [|eauto].
    rewrite lookup_delete in Hk. case_decide; [done|eauto].
  - done.
  - simpl in Hk. rewrite sweep_lookup in Hk.
    destruct (thinkingSignatureCache st !! k) as [e'|] eqn:He; [|done]. eauto.
Qed.

(** X8: the thinking-signature cache round trip: for a non-empty signature of
    at least [MIN_SIGNATURE_LENGTH] characters, [cacheThinkingSignature]
    followed by [getCachedSignatureFamily] returns the stored model family
    while the TTL has not elapsed, and [null] once it has strictly elapsed. *)
Theorem cacheThinkingSignature_getCachedSignatureFamily_roundtrip
    (TTL : Z) (MIN : nat) (now0 now1 : Z) (sig fam : string) (st : CacheState) :
  sig <> "" -> (MIN <= String.length sig)%nat ->
  (now1 - now0 <= TTL ->
     fst (getCachedSignatureFamily TTL now1 sig (cacheThinkingSignature MIN now0 sig fam st)) = Some fam) /\
  (now1 - now0 > TTL ->
     fst (getCachedSignatureFamily TTL now1 sig (cacheThinkingSignature MIN now0 sig fam st)) = None).
Proof.
  intros Hs Hlen.
  assert (He : is_empty_string sig = false) by (destruct sig; done).
  assert (Hc : cacheThinkingSignature MIN now0 sig fam st =
               set_thinking (<[sig := {| modelFamily := fam; fam_timestamp := now0 |}]>
                               (thinkingSignatureCache st)) st).
  { unfold cacheThinkingSignature. rewrite He, bool_decide_eq_false_2 by lia. done. }
  rewrite Hc, getCachedSignatureFamily_fst, He. simpl. rewrite lookup_insert_eq. simpl.
  split; intros Ht.
  - apply not_expired_iff in Ht. by rewrite Ht.
  - apply expired_iff in Ht. by rewrite Ht.
Qed.

(** X9: storing is local: [cacheSignature] for one tool-use id changes no
    read of another id and no model-family read, and
    [cacheThinkingSignature] for one signature changes no family read of
    another signature and no tool-use signature read. *)
Theorem cache_writes_are_local (TTL : Z) (MIN : nat) (now0 now : Z) (st : CacheState) :
  (forall id sig k, k <> id ->
     fst (getCachedSignature TTL now k (cacheSignature now0 id sig st)) =
     fst (getCachedSignature TTL now k st)) /\
  (forall id sig k,
     fst (getCachedSignatureFamily TTL now k (cacheSignature now0 id sig st)) =
     fst (getCachedSignatureFamily TTL now k st)) /\
  (forall sig fam k, k <> sig ->
     fst (getCachedSignatureFamily TTL now k (cacheThinkingSignature MIN now0 sig fam st)) =
     fst (getCachedSignatureFamily TTL now k st)) /\
  (forall sig fam k,
     fst (getCachedSignature TTL now k (cacheThinkingSignature MIN now0 sig fam st)) =
     fst (getCachedSignature TTL now k st)).
Proof.
  split; [|split; [|split]].
  - intros id sig k Hk. rewrite !getCachedSignature_fst. unfold cacheSignature.
    destruct (_ || _); [done|]. simpl. by rewrite lookup_insert_ne by congruence.
  - intros id sig k. rewrite !getCachedSignatureFamily_fst. unfold cacheSignature.
    by destruct (_ || _).
  - intros sig fam k Hk. rewrite !getCachedSignatureFamily_fst. unfold cacheThinkingSignature.
    destruct (_ || _); [done|]. simpl. by rewrite lookup_insert_ne by congruence.
  - intros sig fam k. rewrite !getCachedSignature_fst. unfold cacheThinkingSignature.
    by destruct (_ || _).
Qed.

(** X10: the lazy eviction of a read is invisible: reading at [now' <= now]
    (which may delete the entry it finds expired) changes no read made at
    [now] afterwards, of either cache. *)
Theorem lazy_eviction_invisible (TTL now' now : Z) (st : CacheState) :
  now' <= now ->
  (forall k' k,
     fst (getCachedSignature TTL now k (snd (getCachedSignature TTL now' k' st))) =
     fst (getCachedSignature TTL now k st)) /\
  (forall k' k,
     fst (getCachedSignatureFamily TTL now k (snd (getCachedSignatureFamily TTL now' k' st))) =
     fst (getCachedSignatureFamily TTL now k st)).
Proof.
  intros Hle. split; intros k' k.
  - rewrite !getCachedSignature_read. destruct (is_empty_string k); [done|].
    unfold getCachedSignature. destruct (is_empty_string k'); [done|].
    destruct (signatureCache st !! k') as [e'|] eqn:He'; [|done].
    destruct (expired TTL now' (sig_timestamp e')) eqn:Hx; [|done]. cbn [snd signatureCache set_sig].
    apply (read_agree TTL _ _ now'); [done|]. by apply (delete_agree TTL _ now' _ _ _ e').
  - rewrite !getCachedSignatureFamily_read. destruct (is_empty_string k); [done|].
    unfold getCachedSignatureFamily. destruct (is_empty_string k'); [done|].
    destruct (thinkingSignatureCache st !! k') as [e'|] eqn:He'; [|done].
    destruct (expired TTL now' (fam_timestamp e')) eqn:Hx; [|done]. cbn [snd thinkingSignatureCache set_thinking].
    apply (read_agree TTL _ _ now'); [done|]. by apply (delete_agree TTL _ now' _ _ _ e').
Qed.

(** X11: the periodic sweep is invisible to readers: after [cleanupCache] at
    [now' <= now], every read at [now] of either cache returns what it would
    have returned without the sweep. *)
Theorem cleanupCache_invisible (TTL now' now : Z) (st : CacheState) :
  now' <= now ->
  (forall k, fst (getCachedSignature TTL now k (cleanupCache TTL now' st)) =
             fst (getCachedSignature TTL now k st)) /\
  (forall k, fst (getCachedSignatureFamily TTL now k (cleanupCache TTL now' st)) =
             fst (getCachedSignatureFamily TTL now k st)).
Proof.
  intros Hle. split; intros k.
  - rewrite !getCachedSignature_read. destruct (is_empty_string k); [done|].
    apply (read_agree TTL _ _ now'); [done|]. apply sweep_agree.
  - rewrite !getCachedSignatureFamily_read. destruct (is_empty_string k); [done|].
    apply (read_agree TTL _ _ now'); [done|]. apply sweep_agree.
Qed.

(** X12: in every state the cache can reach, each tool-use signature entry
    has a non-empty id and a non-empty signature, and each thinking-signature
    key is non-empty and at least [MIN_SIGNATURE_LENGTH] characters long. *)
Theorem reachable_entries_wellformed (TTL : Z) (MIN : nat) (st : CacheState) :
  reachable TTL MIN st ->
  (forall k e, signatureCache st !! k = Some e -> k <> "" /\ signature e <> "") /\
  (forall k e, thinkingSignatureCache st !! k = Some e -> k <> "" /\ (MIN <= String.length k)%nat).
Proof.
  intros Hr. split.
  - induction Hr as [| now id sig st _ IH | now id st _ IH | now sig fam st _ IH
                    | now sig st _ IH | st _ IH | now st _ IH]; intros k e Hk.
    + done.
    + unfold cacheSignature in Hk. destruct (is_empty_string id || is_empty_string sig) eqn:Hs;
        [eauto|].
      simpl in Hk. apply orb_false_iff in Hs as [Hi Hsg].
      rewrite lookup_insert in Hk. case_decide as Heq; [|eauto].
      injection Hk as <-. subst k. simpl. split; [by destruct id|by destruct sig].
    + unfold getCachedSignature in Hk.
      destruct (is_empty_string id); [simpl in Hk; eauto|].
      destruct (signatureCache st !! id); [|simpl in Hk; eauto].
      destruct (expired _ _ _); simpl in Hk; [|eauto].
      rewrite lookup_delete in Hk. case_decide; [done|eauto].
    + unfold cacheThinkingSignature in Hk. destruct (_ || _); simpl in Hk; eauto.
    + unfold getCachedSignatureFamily in Hk.
      destruct (is_empty_string sig); [simpl in Hk; eauto|].
      destruct (thinkingSignatureCache st !! sig); [|simpl in Hk; eauto].
      destruct (expired _ _ _); simpl in Hk; eauto.
    + simpl in Hk. eauto.
    + simpl in Hk. rewrite sweep_lookup in Hk.
      destruct (signatureCache st !! k) as [e'|] eqn:He; [|done].
      destruct (expired _ _ _); [done|]. injection Hk as <-. eauto.
  - intros k e Hk. split; [by apply (reachable_thinking_keys_nonempty _ _ _ Hr _ e)|].
    exact (reachable_thinking_keys_long _ _ _ Hr _ _ Hk).
Qed.

End SignatureCacheExtra.

Module DatabaseExtra.
Import Mappers Database DatabaseProofs.

Lemma loadDatabaseModule_loaded (env : Env) st st' :
  loadDatabaseModule env st = (inl tt, st') -> Database_loaded st' = true.
Proof.
  unfold loadDatabaseModule, bind, gets, ret, modify, throw.
  destruct (Database_loaded st) eqn:Hl; [by intros [= <-]|].
  destruct (moduleLoadError st); [discriminate|].
  destruct (require_first env) as [err|]; [|by intros [= <-]].
  destruct (isModuleVersionError env err); [|discriminate].
  destruct (attemptAutoRebuild env err); [|discriminate].
  destruct (require_retry env); [discriminate|by intros [= <-]].
Qed.

Lemma loadDatabaseModule_when_loaded (env : Env) st :
  Database_loaded st = true -> loadDatabaseModule env st = (inl tt, st).
Proof. intros Hl. unfold loadDatabaseModule, bind, gets, ret. by rewrite Hl. Qed.

Lemma getDatabaseConnection_ok (env : Env) dbPath st db st' :
  getDatabaseConnection env dbPath st = (inl db, st') ->
  Database_loaded st' = true /\ dbCache st' !! dbPath = Some db.
Proof.
  unfold getDatabaseConnection, bind at 1.
  destruct (loadDatabaseModule env st) as [[[]|e] st1] eqn:Hl; [|discriminate].
  pose proof (loadDatabaseModule_loaded _ _ _ Hl) as HL.
  unfold bind, gets, ret, modify, open_and_cache, throw.
  destruct (dbCache st1 !! dbPath) as [c|] eqn:Hc.
  - destruct (conn_open c).
    + intros [= <- <-]. done.
    + destruct (openDb env dbPath) as [db'|e]; [|discriminate].
      intros [= <- <-]. simpl. split; [done|]. by rewrite lookup_insert_eq.
  - destruct (openDb env dbPath) as [db'|e]; [|discriminate].
    intros [= <- <-]. simpl. split; [done|]. by rewrite lookup_insert_eq.
Qed.

Lemma getAuthStatus_after_connection (env : Env) dbPath st db st1 :
  getDatabaseConnection env dbPath st = (inl db, st1) ->
  getAuthStatus env dbPath st = try_catch (fun _ => read_auth env db st1) (getAuthStatus_catch dbPath) st.
Proof. intros Hg. unfold getAuthStatus, try_catch, bind. by rewrite Hg. Qed.

Lemma close_one_ok close db st : close_one close db st = (inl tt, st).
Proof.
  unfold close_one, try_catch, ret, throw.
  destruct (conn_open db); [|done]. by destruct (close db).
Qed.

Lemma close_loop_ok close (l : list (string * Conn)) (m : M unit) :
  (forall st, m st = (inl tt, st)) ->
  forall st, fold_left (fun acc (entry : string * Conn) => _ <-! acc ;; close_one close entry.2) l m st
             = (inl tt, st).
Proof.
  revert m. induction l as [|[p db] l IH]; intros m Hm st; simpl; [apply Hm|].
  apply IH. intros st'. unfold bind. rewrite Hm. apply close_one_ok.
Qed.

(** X13: the outcome of loading the native module is remembered.  After a
    successful load every later call succeeds without touching [require];
    after a failure, either the error is cached (every later call throws the
    same error, whatever the environment) or it was an error other than a
    version mismatch, which is not cached and leaves the state unchanged. *)
Theorem loadDatabaseModule_outcome_sticky (env : Env) (st st' : DbState) (r : unit + JsError) :
  loadDatabaseModule env st = (r, st') ->
  (r = inl tt -> forall env' : Env, loadDatabaseModule env' st' = (inl tt, st')) /\
  (forall e, r = inr e ->
     (forall env' : Env, loadDatabaseModule env' st' = (inr e, st')) \/
     (require_first env = Some e /\ isModuleVersionError env e = false /\ st' = st)).
Proof.
  intros Hl. split.
  - intros ->. intros env'. apply loadDatabaseModule_when_loaded.
    exact (loadDatabaseModule_loaded _ _ _ Hl).
  - intros e ->. revert Hl.
    unfold loadDatabaseModule at 1, bind, gets, ret, modify, throw.
    assert (Hcached : forall s, Database_loaded s = false -> moduleLoadError s = Some e ->
              forall env' : Env, loadDatabaseModule env' s = (inr e, s)).
    { intros s H1 H2 env'. unfold loadDatabaseModule, bind, gets. by rewrite H1, H2. }
    destruct (Database_loaded st) eqn:Hld; [discriminate|].
    destruct (moduleLoadError st) as [e0|] eqn:Hme.
    { intros [= <- <-]. left. by apply Hcached. }
    destruct (require_first env) as [err|] eqn:Hrf; [|discriminate].
    destruct (isModuleVersionError env err) eqn:Hv.
    + destruct (attemptAutoRebuild env err).
      * destruct (require_retry env); [|discriminate].
        intros [= <- <-]. left. by apply Hcached.
      * intros [= <- <-]. left. by apply Hcached.
    + intros [= <- <-]. right. done.
Qed.

(** X14: an open connection, once obtained for a path, is reused: every
    later [getDatabaseConnection] for that path returns the same connection
    and leaves the state as it is, whatever [require] and the file system
    would now do. *)
Theorem getDatabaseConnection_reuses_open (env : Env) (dbPath : string) (st st' : DbState) (db : Conn) :
  getDatabaseConnection env dbPath st = (inl db, st') ->
  conn_open db = true ->
  forall env' : Env, getDatabaseConnection env' dbPath st' = (inl db, st').
Proof.
  intros Hg Ho env'. destruct (getDatabaseConnection_ok _ _ _ _ _ Hg) as [Hl Hc].
  unfold getDatabaseConnection, bind at 1. rewrite loadDatabaseModule_when_loaded by done.
  unfold bind, gets, ret. by rewrite Hc, Ho.
Qed.

(** X15: how [getAuthStatus] reports a failure after it obtained a
    connection: no row, a NULL or empty value all give "No auth status found
    in database"; a JSON value [null] gives the wrapped TypeError "Failed to
    read Antigravity database: Cannot read properties of null (reading
    'apiKey')"; any other JSON value without a truthy [apiKey] gives "Auth
    data missing apiKey field"; and a query or JSON.parse error without a
    SQLITE_CANTOPEN code, not a [NativeModuleError] and without the two
    auth-data phrases is wrapped as "Failed to read Antigravity database: ...". *)
Theorem getAuthStatus_read_failures (env : Env) (dbPath : string) (st st1 : DbState) (db : Conn) :
  getDatabaseConnection env dbPath st = (inl db, st1) ->
  (conn_query db = QNoRow \/ conn_query db = QRow None \/ conn_query db = QRow (Some "") ->
     fst (getAuthStatus env dbPath st) = inr (Error no_auth_msg)) /\
  (forall v, conn_query db = QRow (Some v) -> v <> "" ->
     (json_parse env v = inl PNull ->
        fst (getAuthStatus env dbPath st) = inr (Error (String.append failed_prefix null_apiKey_msg))) /\
     ((json_parse env v = inl POther \/
       exists fields, json_parse env v = inl (PObject fields) /\ truthy (get fields "apiKey") = false) ->
        fst (getAuthStatus env dbPath st) = inr (Error missing_apiKey_msg))) /\
  (forall e, (conn_query db = QFail e \/
              exists v, conn_query db = QRow (Some v) /\ v <> "" /\ json_parse env v = inr e) ->
     err_code e <> Some "SQLITE_CANTOPEN" -> err_native e = false ->
     includes (err_message e) "No auth status" = false ->
     includes (err_message e) "missing apiKey" = false ->
     fst (getAuthStatus env dbPath st) = inr (Error (String.append failed_prefix (err_message e)))).
Proof.
  intros Hg. rewrite (getAuthStatus_after_connection _ _ _ _ _ Hg).
  unfold try_catch, read_auth, throw, ret.
  split; [|split].
  - intros Hq. destruct Hq as [Hq|[Hq|Hq]]; rewrite Hq; reflexivity.
  - intros v Hq Hv. rewrite Hq.
    assert (He : SignatureCache.is_empty_string v = false) by (destruct v; done).
    rewrite He. split.
    + intros Hj. rewrite Hj. reflexivity.
    + intros [Hj|(fields & Hj & Ht)]; rewrite Hj; [reflexivity|]. rewrite Ht. reflexivity.
  - intros e Hsrc Hc Hn H1 H2.
    assert (Hcatch : getAuthStatus_catch dbPath e st1 =
                     (inr (Error (String.append failed_prefix (err_message e))), st1)).
    { unfold getAuthStatus_catch, throw.
      rewrite bool_decide_eq_false_2 by done. rewrite H1, H2, Hn. reflexivity. }
    destruct Hsrc as [Hq|(v & Hq & Hv & Hj)]; rewrite Hq.
    + by rewrite Hcatch.
    + assert (He : SignatureCache.is_empty_string v = false) by (destruct v; done).
      rewrite He, Hj. by rewrite Hcatch.
Qed.

(** X16: [closeAllConnections] never throws, whatever closing a connection
    does, and leaves the connection cache empty; once the module is loaded,
    the next [getDatabaseConnection] for any path therefore opens the file
    afresh. *)
Theorem closeAllConnections_empties_cache (close : Conn -> option JsError) (st : DbState) :
  closeAllConnections close st = (inl tt, set_cache ∅ st) /\
  (Database_loaded st = true ->
   forall (env : Env) (dbPath : string),
     getDatabaseConnection env dbPath (snd (closeAllConnections close st)) =
     open_and_cache env dbPath (set_cache ∅ st)).
Proof.
  assert (Hc : closeAllConnections close st = (inl tt, set_cache ∅ st)).
  { unfold closeAllConnections, bind at 1, gets. unfold bind at 1.
    rewrite (close_loop_ok close _ (ret tt)) by done. reflexivity. }
  split; [done|]. intros Hl env dbPath. rewrite Hc. simpl.
  unfold getDatabaseConnection, bind at 1.
  rewrite loadDatabaseModule_when_loaded by done.
  unfold bind, gets. simpl. rewrite lookup_empty. reflexivity.
Qed.

End DatabaseExtra.

(* ===================================================================== *)
(** * Concrete runs: witnesses and counterexamples *)
(* ===================================================================== *)

Module Runs.
Import Fixtures.

(** C1 counterexample: with [maxCapacityRetries = 0] the dispatcher makes a
    single call, to [E0], and surfaces a capacity-exhausted error: not the two
    calls [E0], [E1] the claim states. *)
Lemma failover_no_budget_counterexample :
  Dispatcher.calls_of (Dispatcher.sendMessageStream mock_fetch 0 [10] ["daily"; "prod"])
    = ["daily"] /\
  Dispatcher.events_of (Dispatcher.sendMessageStream mock_fetch 0 [10] ["daily"; "prod"])
    = [Dispatcher.EvError Dispatcher.CapacityExhausted].
Proof. split; reflexivity. Qed.

Lemma failover_E0_capacity_E1_success_witness :
  Dispatcher.calls_of (Dispatcher.sendMessageStream mock_fetch 3 [10] ["daily"; "prod"])
    = ["daily"; "prod"] /\
  Dispatcher.events_of (Dispatcher.sendMessageStream mock_fetch 3 [10] ["daily"; "prod"])
    = Dispatcher.translate [Dispatcher.CData "Stream success"] /\
  Dispatcher.sendMessage mock_fetch 3 [10] ["daily"; "prod"]
    = (["daily"; "prod"], Dispatcher.aggregate (Dispatcher.translate [Dispatcher.CData "Stream success"])).
Proof.
  apply (proj1 (DispatcherProofs.failover_E0_capacity_E1_success mock_fetch 3 [10] "daily" "prod"
           503 ["MODEL_CAPACITY_EXHAUSTED"] [Dispatcher.CData "Stream success"]
           eq_refl eq_refl eq_refl)).
  lia.
Defined.

Lemma stream_committed_after_first_byte_witness :
  [Dispatcher.TEvent (Dispatcher.EvText "partial");
   Dispatcher.TEvent (Dispatcher.EvError Dispatcher.CapacityExhausted)]
  = map Dispatcher.TEvent (map Dispatcher.EvText (Dispatcher.data_texts [Dispatcher.CData "partial"])
                           ++ [Dispatcher.EvError Dispatcher.CapacityExhausted]).
Proof.
  apply (proj2 (DispatcherProofs.stream_committed_after_first_byte cut_fetch 3 [10])
           ["daily"] [] "daily" _ [Dispatcher.CData "partial"] []);
    [reflexivity | reflexivity | simpl; intuition discriminate].
Defined.

(** C3 counterexample: the only account is available (not rate-limited) but
    marked invalid; [selectAccount] returns no account. *)
Lemma selectAccount_invalid_counterexample :
  AccountPool.isAvailable 1000 invalid_account = true /\
  fst (AccountPool.selectAccount 1000 [invalid_account])
    = {| AccountPool.account := None; AccountPool.waitMs := 0 |}.
Proof. split; reflexivity. Qed.

Lemma selectAccount_wait_and_selection_witness :
  fst (AccountPool.selectAccount 1000 [limited_account "a@x" 5000; limited_account "b@x" 3000])
    = {| AccountPool.account := None; AccountPool.waitMs := 2000 |}.
Proof.
  destruct (proj1 (AccountPoolProofs.selectAccount_wait_and_selection 1000
              [limited_account "a@x" 5000; limited_account "b@x" 3000]))
    as [m [Hsel [_ [Hlow [_ Hne]]]]].
  - intros a [<-|[<-|[]]]; eexists; (split; [reflexivity|lia]).
  - destruct (Hne ltac:(discriminate)) as [_ [a [t [Ha [Ht Hm]]]]].
    rewrite Hsel. destruct Ha as [<-|[<-|[]]]; simpl in Ht; injection Ht as <-.
    + (* the first account's wait (4000) is not below the second's (2000) *)
      exfalso.
      specialize (Hlow (limited_account "b@x" 3000) 3000 (or_intror (or_introl eq_refl)) eq_refl).
      lia.
    + rewrite Hm. reflexivity.
Defined.

Lemma cacheSignature_getCachedSignature_roundtrip_witness :
  fst (SignatureCache.getCachedSignature 7200000 1000 "toolu_1"
         (SignatureCache.cacheSignature 0 "toolu_1" "sig_abc" SignatureCache.empty_state))
    = Some "sig_abc".
Proof.
  apply (proj1 (SignatureCacheProofs.cacheSignature_getCachedSignature_roundtrip
                  7200000 0 1000 "toolu_1" "sig_abc" SignatureCache.empty_state
                  ltac:(discriminate) ltac:(discriminate))).
  lia.
Defined.

Lemma cacheThinkingSignature_short_noop_witness :
  SignatureCache.cacheThinkingSignature 50 0 "short" "claude" SignatureCache.empty_state
    = SignatureCache.empty_state /\
  fst (SignatureCache.getCachedSignatureFamily 7200000 10 "short"
         (SignatureCache.cacheThinkingSignature 50 0 "short" "claude" SignatureCache.empty_state))
    = None.
Proof.
  apply (SignatureCacheProofs.cacheThinkingSignature_short_noop 7200000 50 0 10 "short" "claude").
  - apply SignatureCache.reach_init.
  - simpl. lia.
Defined.

Lemma remap_malformed_key_never_overwrites_pattern_witness :
  Mappers.remapFunctionCallArgs "Grep"
    (<["pattern" := Mappers.JString "foo"]> (<["description" := Mappers.JString "bar"]> ∅))
    !! "pattern" = Some (Mappers.JString "foo") /\
  Mappers.remapFunctionCallArgs "Grep"
    (<["pattern" := Mappers.JString "foo"]> (<["description" := Mappers.JString "bar"]> ∅))
    !! "description" = None.
Proof.
  apply (MappersProofs.remap_malformed_key_never_overwrites_pattern "Grep" _ "description"
           (Mappers.JString "foo") (Mappers.JString "bar"));
    [left; reflexivity | left; reflexivity | reflexivity | discriminate
    | reflexivity | discriminate].
Defined.

(** C8 counterexample: opening a database file whose directory does not
    exist fails with better-sqlite3's TypeError, which has no SQLITE_CANTOPEN
    code; the thrown message does not contain "Database not found". *)
Lemma getAuthStatus_not_found_counterexample :
  fst (Database.getAuthStatus (open_fails_env missing_dir_error) "/no/such/dir/state.vscdb"
         initial_db_state)
    = inr (Database.Error "Failed to read Antigravity database: Cannot open database because the directory does not exist") /\
  Database.includes "Failed to read Antigravity database: Cannot open database because the directory does not exist"
    "Database not found" = false.
Proof. split; vm_compute; reflexivity. Qed.

Lemma getAuthStatus_result_and_classification_witness :
  fst (Database.getAuthStatus (open_fails_env cantopen_error) "./non-existent.db" initial_db_state)
    = inr (Database.Error (Database.not_found_msg "./non-existent.db")).
Proof.
  destruct (DatabaseProofs.getAuthStatus_result_and_classification
              (open_fails_env cantopen_error) "./non-existent.db" initial_db_state) as [_ H].
  apply (proj1 (H (Database.set_loaded initial_db_state) cantopen_error
                  eq_refl ltac:(done) eq_refl)).
  reflexivity.
Defined.

End Runs.

Module ExtraRuns.
Import Fixtures Mappers SignatureCache Database.

Lemma remapFunctionCallArgs_pattern_source_witness :
  get (remapFunctionCallArgs "Grep"
         args_desc_query) "pattern"
  = JString "d".
Proof.
  rewrite (MappersExtra.remapFunctionCallArgs_pattern_source "Grep"
             args_desc_query
             (or_introl eq_refl) ltac:(vm_compute; reflexivity)).
  reflexivity.
Defined.

Lemma remapFunctionCallArgs_include_witness :
  get (remapFunctionCallArgs "grep"
         args_includes) "include"
  = JString "*.js,*.ts".
Proof.
  rewrite (MappersExtra.remapFunctionCallArgs_include "grep"
             args_includes eq_refl).
  reflexivity.
Defined.

Lemma remapFunctionCallArgs_lineNumbers_witness :
  get (remapFunctionCallArgs "grep" args_dash_n) "lineNumbers" = JBool true.
Proof.
  rewrite (MappersExtra.remapFunctionCallArgs_lineNumbers "grep"
             args_dash_n eq_refl).
  reflexivity.
Defined.

Lemma remapFunctionCallArgs_boolean_params_witness :
  get (remapFunctionCallArgs "grep"
         args_bools) "ignoreCase"
    = JBool true /\
  get (remapFunctionCallArgs "grep"
         args_bools) "regex"
    = JBool true.
Proof.
  destruct (MappersExtra.remapFunctionCallArgs_boolean_params "grep"
              args_bools eq_refl)
    as [H1 H2].
  split; [rewrite H1 | rewrite H2 by set_solver]; reflexivity.
Defined.

Lemma cacheThinkingSignature_getCachedSignatureFamily_roundtrip_witness :
  fst (getCachedSignatureFamily 7200000 1000 long_sig
         (cacheThinkingSignature 50 0 long_sig "gemini" empty_state)) = Some "gemini".
Proof.
  apply (proj1 (SignatureCacheExtra.cacheThinkingSignature_getCachedSignatureFamily_roundtrip
                  7200000 50 0 1000 long_sig "gemini" empty_state
                  ltac:(discriminate) ltac:(simpl; lia))).
  lia.
Defined.

Lemma lazy_eviction_invisible_witness :
  fst (getCachedSignature 7200000 9000000 "toolu_1"
         (snd (getCachedSignature 7200000 8000000 "toolu_1"
                 (cacheSignature 0 "toolu_1" "sig" empty_state))))
  = fst (getCachedSignature 7200000 9000000 "toolu_1"
           (cacheSignature 0 "toolu_1" "sig" empty_state)).
Proof.
  apply (proj1 (SignatureCacheExtra.lazy_eviction_invisible 7200000 8000000 9000000
                  (cacheSignature 0 "toolu_1" "sig" empty_state) ltac:(lia))).
Defined.

Lemma cleanupCache_invisible_witness :
  fst (getCachedSignatureFamily 7200000 9000000 long_sig
         (cleanupCache 7200000 600000
            (cacheThinkingSignature 50 0 long_sig "claude" empty_state)))
  = fst (getCachedSignatureFamily 7200000 9000000 long_sig
           (cacheThinkingSignature 50 0 long_sig "claude" empty_state)).
Proof.
  apply (proj2 (SignatureCacheExtra.cleanupCache_invisible 7200000 600000 9000000
                  (cacheThinkingSignature 50 0 long_sig "claude" empty_state) ltac:(lia))).
Defined.

Lemma reachable_entries_wellformed_witness :
  (forall k e, signatureCache (cacheThinkingSignature 50 0 long_sig "claude"
                                 (cacheSignature 0 "toolu_1" "sig" empty_state)) !! k = Some e ->
               k <> "" /\ signature e <> "") /\
  (forall k e, thinkingSignatureCache (cacheThinkingSignature 50 0 long_sig "claude"
                                         (cacheSignature 0 "toolu_1" "sig" empty_state)) !! k = Some e ->
               k <> "" /\ (50 <= String.length k)%nat).
Proof.
  apply (SignatureCacheExtra.reachable_entries_wellformed 7200000 50).
  apply reach_cacheThinkingSignature, reach_cacheSignature, reach_init.
Defined.

Lemma loadDatabaseModule_outcome_sticky_witness :
  loadDatabaseModule (open_ok_env QNoRow)
    (set_load_error (NativeModuleError rebuild_failed_msg) initial_db_state)
  = (inr (NativeModuleError rebuild_failed_msg),
     set_load_error (NativeModuleError rebuild_failed_msg) initial_db_state).
Proof.
  destruct (proj2 (DatabaseExtra.loadDatabaseModule_outcome_sticky rebuild_fails_env
                     initial_db_state
                     (set_load_error (NativeModuleError rebuild_failed_msg) initial_db_state)
                     (inr (NativeModuleError rebuild_failed_msg)) ltac:(vm_compute; reflexivity))
                  (NativeModuleError rebuild_failed_msg) eq_refl) as [H|[_ [H _]]].
  - apply H.
  - discriminate H.
Defined.

Lemma getDatabaseConnection_reuses_open_witness :
  getDatabaseConnection (open_fails_env cantopen_error) "./state.vscdb"
    (state_with "./state.vscdb" {| conn_open := true; conn_query := QNoRow |})
  = (inl {| conn_open := true; conn_query := QNoRow |},
     state_with "./state.vscdb" {| conn_open := true; conn_query := QNoRow |}).
Proof.
  apply (DatabaseExtra.getDatabaseConnection_reuses_open (open_ok_env QNoRow) "./state.vscdb"
           initial_db_state
           (state_with "./state.vscdb" {| conn_open := true; conn_query := QNoRow |})
           {| conn_open := true; conn_query := QNoRow |}); reflexivity.
Defined.

Lemma getAuthStatus_read_failures_witness :
  fst (getAuthStatus (open_ok_env (QRow (Some "null"))) "./state.vscdb" initial_db_state)
  = inr (Error (String.append failed_prefix null_apiKey_msg)).
Proof.
  destruct (DatabaseExtra.getAuthStatus_read_failures (open_ok_env (QRow (Some "null")))
              "./state.vscdb" initial_db_state
              (state_with "./state.vscdb" {| conn_open := true; conn_query := QRow (Some "null") |})
              {| conn_open := true; conn_query := QRow (Some "null") |} ltac:(vm_compute; reflexivity))
    as [_ [H _]].
  apply (proj1 (H "null" eq_refl ltac:(discriminate))). reflexivity.
Defined.

End ExtraRuns.
